(** * child_unique_ptr: ownership, back-references, cycle guard, dynamic stores

    A shallow embedding of [pyl::child_unique_ptr<Parent, T, Deleter>] and of
    [pyl::Backtraceable<Parent>] (pyl_child_ptr.h), followed by the properties
    the specification states about them.

    Conventions of the embedding.
    - An address of a [T] (or [Parent]) object is a [positive]; [nullptr] is
      [None].  The object store maps the addresses of the live objects to
      their contents.  The source has defined behaviour only when every
      address it dereferences is live; at an address with no live object the
      model reads a null back-reference and drops a write, and the theorems
      that depend on an object say that it is live.
    - A [child_unique_ptr] object is identified by its own address (a slot
      identifier), so that [this != &other] and the aliasing of [swap] and
      move-assignment are those of the source.  A slot identifier that was
      never written denotes a default-constructed slot.
    - [would_create_cycle] is a loop without a bound; it is given fuel, one
      unit per [cur = cur->parent] step, and [None] means the fuel ran out.
    - A slot that is a data member of a [T] object dies with the object.
      The slot table keeps its entry.  Move-assignment is the one operation
      that reads a slot other than its own after a deleter has run; it has
      a result in the model only when neither of the two slots died. *)

From Stdlib Require Import ZArith Ascii String.
From stdpp Require Import base option list gmap strings pretty.

Abbreviation ptr := positive (only parsing).
Abbreviation sid := positive (only parsing).

(** ** Exceptions of the dynamic API *)

Inductive exn :=
  | runtime_error (what : string)
  | bad_any_cast.

Inductive result (A : Type) :=
  | Ok (a : A)
  | Throw (e : exn).
Arguments Ok {A} a.
Arguments Throw {A} e.

Definition rbind {A B} (r : result A) (k : A → result B) : result B :=
  match r with Ok a => k a | Throw e => Throw e end.

Section Model.
(** Runtime types held by [std::any]: a tag per C++ type, with decidable
    equality ([typeid] comparison), and the values of each. *)
Context {tag : Type} `{EqDecision tag} {denote : tag → Type}.
(** [V]: the members of [T] other than the [Backtraceable] base;
    [D]: the [Deleter] template argument. *)
Context {V D : Type}.

(** *** std::any *)

Definition any : Type := option {t : tag & denote t}.

Definition make_any {t : tag} (v : denote t) : any := Some (existT t v).

Definition any_cast (u : tag) (a : any) : result (denote u) :=
  match a with
  | None => Throw bad_any_cast
  | Some (existT t v) =>
      match decide (t = u) with
      | left e => Ok (eq_rect t denote v u e)
      | right _ => Throw bad_any_cast
      end
  end.

(** A return type is a tag or [void]. *)
Definition rdenote (R : option tag) : Type :=
  match R with Some r => denote r | None => unit end.

(** [std::function<R(Args...)>] *)
Fixpoint fn_type (As : list tag) (R : option tag) : Type :=
  match As with
  | [] => rdenote R
  | a :: As' => denote a → fn_type As' R
  end.

Definition dyn_fn_t : Type := list any → result any.

(** *** Backtraceable objects and slots *)

Record object := Object {
  parent : option ptr;   (* Backtraceable<Parent>::parent, non-owning *)
  body : V
}.

Record slot := Slot {
  parent_ : option ptr;                       (* non-owning *)
  ptr_ : option ptr;                          (* owned *)
  deleter_ : D;
  dyn_fields_ : option (gmap string any);     (* unique_ptr<dyn_field_map_t> *)
  dyn_fns_ : option (gmap string dyn_fn_t)    (* unique_ptr<dyn_fn_map_t> *)
}.

Record state := State {
  objects : gmap ptr object;
  slots : gmap sid slot
}.

(** The compile-time facts the class branches on with [if constexpr]. *)
Class Traits := {
  is_backtraceable : bool;   (* std::is_base_of_v<Backtraceable<Parent>, T> *)
  is_parent : bool           (* std::is_base_of_v<Parent, T> *)
}.

(** The deleter policy: [deleter_(ptr_)] ends the lifetime of the pointee
    and of whatever its destructor owns.  It reads the whole state (a
    destructor follows the slots of the object it destroys) and yields the
    object store that is left; the slots that were members of a destroyed
    object stay in the table, and [destroyed_slot] below tells which they
    are. *)
Class Deleter := {
  default_deleter : D;                                   (* Deleter deleter_{} *)
  run_deleter : D → ptr → state → gmap ptr object
}.

(** The [child_unique_ptr] data members of a [T] object, by their
    addresses.  Their lifetime ends with that of the object. *)
Class Members := {
  member_slots : V → list sid
}.

(** The equality capabilities of [T] probed by [equals]. *)
Class EqCapability := {
  equals_method : option (object → object → bool);   (* a.equals(b) *)
  operator_eq : option (object → object → bool)      (* a == b *)
}.

Context `{!Traits} `{!Deleter} `{!Members} `{!EqCapability}.

Definition null_slot : slot :=
  Slot None None default_deleter None None.

Definition slot_at (σ : state) (i : sid) : slot :=
  default null_slot (slots σ !! i).

Definition write_slot (i : sid) (s : slot) (σ : state) : state :=
  State (objects σ) (<[i := s]> (slots σ)).

Definition set_ptr (p : option ptr) (s : slot) : slot :=
  Slot (parent_ s) p (deleter_ s) (dyn_fields_ s) (dyn_fns_ s).

Definition parent_field (h : gmap ptr object) (p : ptr) : option ptr :=
  h !! p ≫= parent.

Definition store_parent (p : ptr) (q : option ptr) (σ : state) : state :=
  State (alter (λ o, Object q (body o)) p (objects σ)) (slots σ).

(** *** Constructors *)

(** [child_unique_ptr()] and [child_unique_ptr(nullptr)] *)
Definition construct_default (this : sid) (σ : state) : state :=
  write_slot this null_slot σ.

(** [explicit child_unique_ptr(Parent* parent)] *)
Definition construct (this : sid) (parent : option ptr) (σ : state) : state :=
  write_slot this (Slot parent None default_deleter None None) σ.

(** *** Pointer-like API *)

Definition get (this : sid) (σ : state) : option ptr := ptr_ (slot_at σ this).

(** [explicit operator bool] *)
Definition to_bool (this : sid) (σ : state) : bool :=
  bool_decide (ptr_ (slot_at σ this) ≠ None).

Definition get_deleter (this : sid) (σ : state) : D := deleter_ (slot_at σ this).

(** [Parent* parent() const] *)
Definition slot_parent (this : sid) (σ : state) : option ptr :=
  parent_ (slot_at σ this).

Definition set_parent_on_child (this : sid) (σ : state) : state :=
  match ptr_ (slot_at σ this) with
  | None => σ
  | Some p =>
      if is_backtraceable then store_parent p (parent_ (slot_at σ this)) σ
      else σ
  end.

Definition clear_parent_on_child (this : sid) (σ : state) : state :=
  match ptr_ (slot_at σ this) with
  | None => σ
  | Some p =>
      if is_backtraceable then store_parent p None σ
      else σ
  end.

(** The loop of [would_create_cycle]:
    [for (cur = new_parent; cur; cur = cur->parent) if (cur == as_parent) return true;] *)
Fixpoint walk (fuel : nat) (h : gmap ptr object)
    (as_parent cur : option ptr) : option bool :=
  match cur with
  | None => Some false
  | Some c =>
      if decide (cur = as_parent) then Some true
      else match fuel with
           | O => None
           | S n => walk n h as_parent (parent_field h c)
           end
  end.

Definition would_create_cycle (fuel : nat) (h : gmap ptr object)
    (child new_parent : option ptr) : option bool :=
  if negb is_backtraceable then Some false
  else if negb is_parent then Some false
  else walk fuel h child new_parent.

Definition release (this : sid) (σ : state) : option ptr * state :=
  let σ1 := clear_parent_on_child this σ in
  let p := ptr_ (slot_at σ1 this) in
  (p, write_slot this (set_ptr None (slot_at σ1 this)) σ1).

(** [if (ptr_) { clear_parent_on_child(); deleter_(ptr_); }] *)
Definition destroy_owned (this : sid) (σ : state) : state :=
  match ptr_ (slot_at σ this) with
  | Some old =>
      let σ' := clear_parent_on_child this σ in
      State (run_deleter (deleter_ (slot_at σ' this)) old σ') (slots σ')
  | None => σ
  end.

Definition reset (fuel : nat) (this : sid) (p : option ptr) (σ : state)
    : option state :=
  refuse ← match p, parent_ (slot_at σ this) with
           | Some _, Some _ =>
               would_create_cycle fuel (objects σ) p (parent_ (slot_at σ this))
           | _, _ => Some false
           end;
  if (refuse : bool) then Some σ   (* silently refuse adoption *)
  else
    let σ1 := destroy_owned this σ in
    let σ2 := write_slot this (set_ptr p (slot_at σ1 this)) σ1 in
    Some (set_parent_on_child this σ2).

(** [child_unique_ptr(Parent* parent, pointer p)] *)
Definition construct_adopt (fuel : nat) (this : sid) (parent p : option ptr)
    (σ : state) : option state :=
  reset fuel this p (construct this parent σ).

(** [child_unique_ptr(Parent* parent, pointer p, const Deleter& d)] *)
Definition construct_adopt_with (fuel : nat) (this : sid)
    (parent p : option ptr) (d : D) (σ : state) : option state :=
  reset fuel this p (write_slot this (Slot parent None d None None) σ).

(** [emplace(args...)]: [new_T] is [new T(args...)], which yields the
    address of the object it constructed. *)
Definition emplace (fuel : nat) (this : sid) (new_T : state → ptr * state)
    (σ : state) : option state :=
  let '(p, σ1) := new_T σ in reset fuel this (Some p) σ1.

(** [child_unique_ptr(child_unique_ptr&& other)]; [this] is the object
    under construction. *)
Definition move_construct (this other : sid) (σ : state) : state :=
  let o := slot_at σ other in
  let '(p, σ1) := release other σ in
  let o1 := slot_at σ1 other in
  let σ2 := write_slot other
              (Slot (parent_ o1) (ptr_ o1) (deleter_ o1) None None) σ1 in
  let σ3 := write_slot this
              (Slot (parent_ o) p (deleter_ o) (dyn_fields_ o) (dyn_fns_ o)) σ2 in
  set_parent_on_child this σ3.

(** The slot [i] died between the object stores [h] and [h']: it is a member
    of an object that is live in [h] and no longer in [h']. *)
Definition destroyed_slot (h h' : gmap ptr object) (i : sid) : Prop :=
  map_Exists (λ q o, h' !! q = None ∧ i ∈ member_slots (body o)) h.

#[global] Instance destroyed_slot_dec h h' i : Decision (destroyed_slot h h' i).
Proof. unfold destroyed_slot. apply _. Defined.

(** [operator=(child_unique_ptr&& other)]:
    [pointer p = other.release(); reset(p);
     deleter_ = std::move(other.deleter_);
     dyn_fields_ = std::move(other.dyn_fields_);
     dyn_fns_ = std::move(other.dyn_fns_);]
    The three moves write [this] and read [other] after [reset] has run the
    deleter on the value [this] owned.  When one of the two slots is a
    member of an object which that deleter destroyed (as [other] is in
    [root.left = std::move(root.left->left)]), the source accesses a
    destroyed slot and has no defined behaviour.  [None]: the fuel of the
    cycle check ran out, or there is no defined result. *)
Definition move_assign (fuel : nat) (this other : sid) (σ : state)
    : option state :=
  if decide (this = other) then Some σ
  else
    let '(p, σ1) := release other σ in
    σ2 ← reset fuel this p σ1;
    if decide (destroyed_slot (objects σ1) (objects σ2) this ∨
               destroyed_slot (objects σ1) (objects σ2) other) then None
    else
    let o := slot_at σ2 other in
    let t := slot_at σ2 this in
    let σ3 := write_slot this
                (Slot (parent_ t) (ptr_ t) (deleter_ o)
                      (dyn_fields_ o) (dyn_fns_ o)) σ2 in
    Some (write_slot other
            (Slot (parent_ o) (ptr_ o) (deleter_ o) None None) σ3).

(** [swap(child_unique_ptr& other)] *)
Definition swap (this other : sid) (σ : state) : state :=
  let a := slot_at σ this in
  let b := slot_at σ other in
  let σ1 := write_slot this
              (Slot (parent_ a) (ptr_ b) (deleter_ b)
                    (dyn_fields_ b) (dyn_fns_ b)) σ in
  let σ2 := write_slot other
              (Slot (parent_ b) (ptr_ a) (deleter_ a)
                    (dyn_fields_ a) (dyn_fns_ a)) σ1 in
  set_parent_on_child other (set_parent_on_child this σ2).

(** [operator=(std::unique_ptr<T>&& up)]: [up] is what the foreign owner
    holds; it holds nothing afterwards. *)
Definition assign_unique (fuel : nat) (this : sid) (up : option ptr)
    (σ : state) : option (option ptr * state) :=
  σ' ← reset fuel this up σ; Some (None, σ').

(** [~child_unique_ptr()] *)
Definition destroy (fuel : nat) (this : sid) (σ : state) : option state :=
  σ' ← reset fuel this None σ;
  Some (State (objects σ') (delete this (slots σ'))).

(** *** Back-reference chains *)

(** The [n]-th node of the walk [cur, cur->parent, cur->parent->parent, ...]. *)
Fixpoint ancestor (n : nat) (h : gmap ptr object) (cur : option ptr)
    : option ptr :=
  match n with
  | O => cur
  | S k => ancestor k h (cur ≫= parent_field h)
  end.

(** [c] is one of the nodes of the walk that starts at [start]. *)
Definition in_walk (h : gmap ptr object) (start : option ptr) (c : ptr) : Prop :=
  ∃ n, ancestor n h start = Some c.

(** The walk reaches an empty reference or the node it looks for. *)
Definition walk_halts (h : gmap ptr object) (as_parent start : option ptr)
    : Prop :=
  ∃ n, ancestor n h start = None ∨ ancestor n h start = as_parent.

(** The back-reference chain of [v] ([v->parent], [v->parent->parent], ...)
    contains [v]. *)
Definition in_own_chain (h : gmap ptr object) (v : ptr) : Prop :=
  in_walk h (parent_field h v) v.

Definition acyclic (h : gmap ptr object) : Prop :=
  ∀ v, ¬ in_own_chain h v.

(** Every back-reference of [h'] is a back-reference of [h]. *)
Definition sub_edges (h' h : gmap ptr object) : Prop :=
  ∀ x y, parent_field h' x = Some y → parent_field h x = Some y.

(** The sense in which a deleter only destroys: it adds no back-reference. *)
Definition deleter_only_removes : Prop :=
  ∀ (d : D) (q : ptr) (σ : state),
    sub_edges (run_deleter d q σ) (objects σ).

(** *** Dynamic field map: [ptr["key"] <=> std::any] *)

Definition M (A : Type) : Type := state → result A * state.

Definition throw {A} (e : exn) : M A := λ σ, (Throw e, σ).

Definition mbind {A B} (m : M A) (k : A → M B) : M B :=
  λ σ, match m σ with
       | (Ok a, σ') => k a σ'
       | (Throw e, σ') => (Throw e, σ')
       end.

Definition set_fields (m : option (gmap string any)) (s : slot) : slot :=
  Slot (parent_ s) (ptr_ s) (deleter_ s) m (dyn_fns_ s).

Definition set_fns (m : option (gmap string dyn_fn_t)) (s : slot) : slot :=
  Slot (parent_ s) (ptr_ s) (deleter_ s) (dyn_fields_ s) m.

Definition ensure_fields (this : sid) (σ : state) : gmap string any * state :=
  match dyn_fields_ (slot_at σ this) with
  | Some m => (m, σ)
  | None => (∅, write_slot this (set_fields (Some ∅) (slot_at σ this)) σ)
  end.

Definition fields_or_null (this : sid) (σ : state) : option (gmap string any) :=
  dyn_fields_ (slot_at σ this).

Record field_proxy := FieldProxy { owner_ : option sid; key_ : string }.

(** [field_proxy operator[](std::string key)] *)
Definition index (this : sid) (key : string) : M field_proxy :=
  λ σ, match ptr_ (slot_at σ this) with
       | None =>
           (Throw (runtime_error "child_unique_ptr::operator[] on null pointer"), σ)
       | Some _ => (Ok (FieldProxy (Some this) key), σ)
       end.

(** [const field_proxy operator[](std::string key) const] *)
Definition index_const (this : sid) (key : string) : M field_proxy :=
  λ σ, match ptr_ (slot_at σ this) with
       | None =>
           (Throw (runtime_error
              "child_unique_ptr::operator[] const on null pointer"), σ)
       | Some _ => (Ok (FieldProxy (Some this) key), σ)
       end.

(** [field_proxy::operator=(U&& value)] *)
Definition proxy_assign {t : tag} (px : field_proxy) (value : denote t) : M unit :=
  λ σ, match owner_ px with
       | None =>
           (Throw (runtime_error
              "child_unique_ptr::operator[] assign on null pointer"), σ)
       | Some o =>
           match ptr_ (slot_at σ o) with
           | None =>
               (Throw (runtime_error
                  "child_unique_ptr::operator[] assign on null pointer"), σ)
           | Some _ =>
               let '(m, σ1) := ensure_fields o σ in
               (Ok (), write_slot o
                         (set_fields (Some (<[key_ px := make_any value]> m))
                                     (slot_at σ1 o)) σ1)
           end
       end.

(** [field_proxy::as<U>()], also the implicit conversion [operator U()] *)
Definition proxy_as (u : tag) (px : field_proxy) : M (denote u) :=
  λ σ, match owner_ px with
       | None => (Throw (runtime_error "field_proxy: no owner"), σ)
       | Some o =>
           match fields_or_null o σ with
           | None =>
               (Throw (runtime_error "field_proxy: no dynamic fields map"), σ)
           | Some m =>
               match m !! key_ px with
               | None =>
                   (Throw (runtime_error
                      ("field_proxy: key not found: " +:+ key_ px)), σ)
               | Some a => (any_cast u a, σ)
               end
           end
       end.

(** [field_proxy::exists()] *)
Definition proxy_exists (px : field_proxy) : M bool :=
  λ σ, match owner_ px with
       | None => (Ok false, σ)
       | Some o =>
           match fields_or_null o σ with
           | None => (Ok false, σ)
           | Some m => (Ok (bool_decide (is_Some (m !! key_ px))), σ)
           end
       end.

(** The three uses of a proxy on a slot: [ptr[key] = value],
    [ptr[key].as<U>()], [ptr[key].exists()]. *)
Definition set_field {t : tag} (this : sid) (key : string) (value : denote t)
    : M unit :=
  mbind (index this key) (λ px, proxy_assign px value).

Definition get_field (u : tag) (this : sid) (key : string) : M (denote u) :=
  mbind (index this key) (proxy_as u).

Definition field_exists (this : sid) (key : string) : M bool :=
  mbind (index this key) proxy_exists.

(** *** Dynamic functions: def / call / operator() *)

Record call_result := CallResult { value_ : any; has_value_ : bool }.

Definition void_result : call_result := CallResult None false.

(** [call_result::as<U>()] *)
Definition as_ (U : option tag) (r : call_result) : result (rdenote U) :=
  match U with
  | None => Ok ()
  | Some u =>
      if negb (has_value_ r)
      then Throw (runtime_error "call_result: no value (void function?)")
      else any_cast u (value_ r)
  end.

Definition ensure_fns (this : sid) (σ : state) : gmap string dyn_fn_t * state :=
  match dyn_fns_ (slot_at σ this) with
  | Some m => (m, σ)
  | None => (∅, write_slot this (set_fns (Some ∅) (slot_at σ this)) σ)
  end.

Definition fns_or_null (this : sid) (σ : state) : option (gmap string dyn_fn_t) :=
  dyn_fns_ (slot_at σ this).

(** [std::any(fn(...))], or [std::any{}] after a [void] call *)
Definition erase_result (R : option tag) : rdenote R → any :=
  match R with
  | Some r => λ v, make_any v
  | None => λ _, None
  end.

(** [fn(std::any_cast<Args>(args[I])...)]: the arguments are taken from
    [args] in order; [call_fn_from_anys] has checked that there are as many
    as [Args]. *)
Fixpoint call_fn_from_anys_impl (As : list tag) (R : option tag)
    : fn_type As R → list any → result any :=
  match As with
  | [] => λ fn _, Ok (erase_result R fn)
  | a :: As' => λ fn args,
      match args with
      | [] => Throw bad_any_cast
      | x :: xs =>
          rbind (any_cast a x) (λ v, call_fn_from_anys_impl As' R (fn v) xs)
      end
  end.

Definition call_fn_from_anys (As : list tag) (R : option tag)
    (fn : fn_type As R) (args : list any) : result any :=
  if decide (length args ≠ length As)
  then Throw (runtime_error "dynamic call: argument count mismatch")
  else call_fn_from_anys_impl As R fn args.

(** [def<R, Args...>(name, f)] *)
Definition def (R : option tag) (As : list tag) (this : sid) (name : string)
    (f : fn_type As R) : M unit :=
  λ σ, let '(m, σ1) := ensure_fns this σ in
       (Ok (), write_slot this
                 (set_fns (Some (<[name := call_fn_from_anys As R f]> m))
                          (slot_at σ1 this)) σ1).

(** [operator()(name, args...)]: every argument comes with its static type. *)
Definition operator_call (this : sid) (name : string)
    (args : list {t : tag & denote t}) : M call_result :=
  λ σ, match ptr_ (slot_at σ this) with
       | None =>
           (Throw (runtime_error "child_unique_ptr::operator(): null pointer"), σ)
       | Some _ =>
           match fns_or_null this σ with
           | None =>
               (Throw (runtime_error
                  "child_unique_ptr::operator(): no functions defined"), σ)
           | Some m =>
               match m !! name with
               | None =>
                   (Throw (runtime_error
                      ("child_unique_ptr::operator(): function not found: "
                       +:+ name)), σ)
               | Some fn =>
                   let packed : list any := Some <$> args in
                   match fn packed with
                   | Ok ret => (Ok (CallResult ret true), σ)
                   | Throw e => (Throw e, σ)
                   end
               end
           end
       end.

(** [call<R>(name, args...)] *)
Definition call (R : option tag) (this : sid) (name : string)
    (args : list {t : tag & denote t}) : M (rdenote R) :=
  mbind (operator_call this name args) (λ r σ, (as_ R r, σ)).

(** [field_proxy::operator()(args...)] *)
Definition proxy_call (px : field_proxy) (args : list {t : tag & denote t})
    : M call_result :=
  match owner_ px with
  | None => throw (runtime_error "field_proxy: no owner for function call")
  | Some o => operator_call o (key_ px) args
  end.

(** *** Service helpers *)

(** [equals]: [None] when an owned address has no live object. *)
Definition equals (this other : sid) (σ : state) : option bool :=
  match ptr_ (slot_at σ this), ptr_ (slot_at σ other) with
  | None, None => Some true
  | None, Some _ | Some _, None => Some false
  | Some a, Some b =>
      match equals_method with
      | Some eqm =>
          x ← objects σ !! a; y ← objects σ !! b; Some (eqm x y)
      | None =>
          match operator_eq with
          | Some eqo =>
              x ← objects σ !! a; y ← objects σ !! b; Some (eqo x y)
          | None => Some (bool_decide (a = b))
          end
      end
  end.

Definition full_equals (this other : sid) (σ : state) : option bool :=
  equals this other σ.

(** [make_child_unique_ptr<Parent, T>(args...)]: orphan, [parent_ == nullptr]. *)
Definition make_child_unique_ptr_orphan (fuel : nat) (tmp : sid)
    (new_T : state → ptr * state) (σ : state) : option state :=
  emplace fuel tmp new_T (construct_default tmp σ).

(** [make_child_unique_ptr<Parent, T>(parent, args...)] *)
Definition make_child_unique_ptr (fuel : nat) (tmp : sid) (parent : option ptr)
    (new_T : state → ptr * state) (σ : state) : option state :=
  emplace fuel tmp new_T (construct tmp parent σ).

End Model.

Arguments object : clear implicits.
Arguments slot {tag denote} D.
Arguments state {tag denote} V D.
Arguments Traits : clear implicits.
Arguments Deleter {tag denote} V D.
Arguments EqCapability : clear implicits.
Arguments Members : clear implicits.

(** ** The test instantiation: [struct Node : Backtraceable<Node>] with
    [child_unique_ptr<Node, Node>] members [left] and [right]
    (tests/test_pyl_child_ptr.cpp). *)

Module NodeTest.

Inductive tag := TInt | TBool | TString.

#[export] Instance tag_eq_dec : EqDecision tag.
Proof. solve_decision. Defined.

Definition denote (t : tag) : Type :=
  match t with
  | TInt => Z
  | TBool => bool
  | TString => string
  end.

(** The members of [Node]; [left] and [right] are the addresses of the two
    member slots. *)
Record Node := MkNode { value : Z; left : sid; right : sid }.

#[export] Instance Node_traits : Traits := {|
  is_backtraceable := true;
  is_parent := true
|}.

(** [delete p] for a [Node]: the member slots are destroyed in reverse
    order of declaration, each one clearing the back-reference of the node
    it owns and deleting it, and then the storage of [p] goes.  [depth]
    bounds the nesting of destructors. *)
Fixpoint delete_node (depth : nat) (sl : gmap sid (slot (denote := denote) ()))
    (p : ptr) (h : gmap ptr (object Node)) : gmap ptr (object Node) :=
  match depth with
  | O => h
  | S d =>
      match h !! p with
      | None => h
      | Some o =>
          let drop (i : sid) (h : gmap ptr (object Node)) :=
            match sl !! i ≫= ptr_ with
            | Some c =>
                delete_node d sl c (alter (λ x, Object None (body x)) c h)
            | None => h
            end in
          delete p (drop (left (body o)) (drop (right (body o)) h))
      end
  end.

(** [std::default_delete<Node>] *)
#[export] Instance default_delete : Deleter (denote := denote) Node () := {|
  default_deleter := ();
  run_deleter := λ _ p σ,
    delete_node (S (size (objects σ))) (slots σ) p (objects σ)
|}.

(** The two slot members of a [Node]. *)
#[export] Instance Node_members : Members Node := {|
  member_slots := λ n, [left n; right n]
|}.

(** [Node] has [operator==] on [value] and no [equals] method. *)
#[export] Instance Node_eq : EqCapability Node := {|
  equals_method := None;
  operator_eq := Some (λ a b, bool_decide (value (body a) = value (body b)))
|}.

Abbreviation st := (state (denote := denote) Node ()) (only parsing).

(** [Node(v)] constructed at address [p], its members [left{this}] and
    [right{this}] at [l] and [r]. *)
Definition Node_new (p : ptr) (l r : sid) (v : Z) (σ : st) : ptr * st :=
  let σ1 := State (<[p := Object None (MkNode v l r)]> (objects σ)) (slots σ) in
  (p, construct r (Some p) (construct l (Some p) σ1)).

Definition empty_state : st := State ∅ ∅.

(** [Node root(1);] at address 1, with [root.left] at 1 and [root.right] at 2. *)
Definition root_state : st := (Node_new 1 1 2 1 empty_state).2.

(** [root.left.emplace(2);] the child at address 2, its slots at 3 and 4. *)
Definition with_child (fuel : nat) : option st :=
  emplace fuel 1 (Node_new 2 3 4 2) root_state.

(** [root.left->left.reset(&root);] *)
Definition adopt_root (fuel : nat) : option st :=
  σ ← with_child fuel; reset fuel 3 (Some 1%positive) σ.

(** A root that is itself owned: [auto holder = make_child_unique_ptr<Node>(1);]
    with [holder] at slot 5, then [holder->left.emplace(2);]. *)
Definition held_root (fuel : nat) : option st :=
  σ ← make_child_unique_ptr_orphan fuel 5 (Node_new 1 1 2 1) empty_state;
  emplace fuel 1 (Node_new 2 3 4 2) σ.

(** [holder->left->left.swap(holder);] *)
Definition swapped (fuel : nat) : option st :=
  swap 3 5 <$> held_root fuel.

(** [holder->left->left = std::move(holder);] *)
Definition moved (fuel : nat) : option st :=
  σ ← held_root fuel; move_assign fuel 3 5 σ.

(** The states above, with the fuel they need. *)
Definition child_state : st := default empty_state (with_child 1).
Definition held_state : st := default empty_state (held_root 1).
Definition swapped_state : st := default empty_state (swapped 1).

(** [root.left.emplace(2); root.right.emplace(3);] the second child at
    address 3, its slots at 5 and 6. *)
Definition two_children : st :=
  default empty_state (emplace 1 2 (Node_new 3 5 6 3) child_state).

(** [root.right["hp"] = 100;] with both children in place. *)
Definition right_hp_state : st :=
  (set_field (t := TInt) 2 "hp" 100%Z two_children).2.

(** [root.left.emplace(2); root.left->left.emplace(3);] the grandchild at
    address 3, its slots at 5 and 6. *)
Definition grandchild_state : st :=
  default empty_state (emplace 2 3 (Node_new 3 5 6 3) child_state).

(** [root.left["hp"] = 100;] *)
Definition hp_state : st :=
  (set_field (t := TInt) 1 "hp" 100%Z child_state).2.

(** [new Node(10)] at address 3 (slots 5 and 6), ready for
    [root.left.reset(new Node(10));] *)
Definition replacement_state : st := (Node_new 3 5 6 10 hp_state).2.

End NodeTest.

(** The [Node] of the README, which has the two slot members and does not
    derive from [Backtraceable]: the class then keeps no back-reference. *)
Module PlainTest.
Import NodeTest.

Definition Plain_traits : Traits := {|
  is_backtraceable := false;
  is_parent := true
|}.

(** [Node root(1); root.left.emplace(2);] *)
Definition plain_child_state : st :=
  default empty_state
    (emplace (H := Plain_traits) 1 1 (Node_new 2 3 4 2) root_state).

End PlainTest.


(** ** Client programs and the coherence of back-references *)

Section Programs.
Context {tag : Type} {denote : tag → Type} {V D : Type}.
Context `{!Traits} `{!Deleter (denote := denote) V D} `{!Members V}.

(** The operations of the class that adopt through [reset] or adopt nothing. *)
Inductive guarded_op :=
  | OpConstruct (this : sid) (parent : option ptr)
  | OpConstructAdopt (this : sid) (parent p : option ptr)
  | OpReset (this : sid) (p : option ptr)
  | OpRelease (this : sid)
  | OpAssignUnique (this : sid) (up : option ptr)
  | OpMoveAssign (this other : sid)
  | OpDestroy (this : sid).

Definition run_op (fuel : nat) (op : guarded_op)
    (σ : state (denote := denote) V D) : option (state (denote := denote) V D) :=
  match op with
  | OpConstruct this parent => Some (construct this parent σ)
  | OpConstructAdopt this parent p => construct_adopt fuel this parent p σ
  | OpReset this p => reset fuel this p σ
  | OpRelease this => Some (release this σ).2
  | OpAssignUnique this up => snd <$> assign_unique fuel this up σ
  | OpMoveAssign this other => move_assign fuel this other σ
  | OpDestroy this => destroy fuel this σ
  end.

(** A client program: the operations one after the other. *)
Fixpoint run_ops (fuel : nat) (ops : list guarded_op)
    (σ : state (denote := denote) V D) : option (state (denote := denote) V D) :=
  match ops with
  | [] => Some σ
  | op :: rest => σ' ← run_op fuel op σ; run_ops fuel rest σ'
  end.

(** The value a slot owns, when live, has the recorded parent of the slot as
    its back-reference. *)
Definition coherent_at (σ : state (denote := denote) V D) (i : sid) : Prop :=
  ∀ p o, ptr_ (slot_at σ i) = Some p → objects σ !! p = Some o →
         parent o = parent_ (slot_at σ i).

End Programs.

(** ** Typed argument lists *)

Section TypedArguments.
Context {tag : Type} {denote : tag → Type}.

(** The values [args...] of a call whose static types are [As]. *)
Fixpoint args_t (As : list tag) : Type :=
  match As with
  | [] => unit
  | a :: As' => denote a * args_t As'
  end.

(** [fn(args...)] *)
Fixpoint apply_fn (As : list tag) (R : option tag)
    : fn_type (denote := denote) As R → args_t As → rdenote R :=
  match As with
  | [] => λ fn _, fn
  | a :: As' => λ fn xs, apply_fn As' R (fn xs.1) xs.2
  end.

(** The arguments as [operator()] receives them, each with its type. *)
Fixpoint pack (As : list tag) : args_t As → list {t : tag & denote t} :=
  match As with
  | [] => λ _, []
  | a :: As' => λ xs, existT a xs.1 :: pack As' xs.2
  end.

End TypedArguments.

(** ** pyl::Text (pyl_text.h): a wrapper of [std::string] *)

Record Text := MkText { data_ : string }.

(** [Text + Text] *)
Definition Text_plus (lhs rhs : Text) : Text := MkText (data_ lhs +:+ data_ rhs).

(** ** The service helpers of child_unique_ptr *)

Module Service.
Section Defs.
Context {tag : Type} {denote : tag → Type} {V D : Type}.
Context `{!Traits} `{!Deleter (denote := denote) V D}.

(** A returned value, or [throw std::logic_error(what)]. *)
Inductive thrown_or (A : Type) :=
  | Returned (a : A)
  | Logic_error (what : string).
Global Arguments Returned {A} a.
Global Arguments Logic_error {A} what.

(** What the [requires] expressions of the helpers find in [T]; a method
    that [T] lacks is [None].  Sizes and hashes are [std::size_t] values. *)
Class Capabilities := {
  type_name : string;                               (* typeid(T).name() *)
  show_pointer : ptr → string;                      (* os << p, as const void* *)
  to_string_method : option (object V → string);    (* t.to_string() *)
  stream_insert : option (object V → string);       (* os << t *)
  hash_method : option (object V → N);              (* t.hash() *)
  std_hash : option (object V → N);                 (* std::hash<T>{}(t) *)
  hash_string : string → N;                         (* std::hash<std::string> *)
  clone_method : option (object V → object V);      (* *t.clone() *)
  copy_constructor : option (object V → object V);  (* T(const T&) *)
  size_method : option (object V → N);              (* t.size() *)
  length_method : option (object V → N)             (* t.length() *)
}.

Context {caps : Capabilities}.

(** [to_string()]: [None] when the owned address has no live object. *)
Definition to_string (this : sid) (σ : state (denote := denote) V D)
    : option string :=
  match ptr_ (slot_at σ this) with
  | None => Some "<null>"
  | Some p =>
      match to_string_method with
      | Some f => f <$> objects σ !! p
      | None =>
          match stream_insert with
          | Some f => f <$> objects σ !! p
          | None => Some ("<" +:+ type_name +:+ " @" +:+ show_pointer p +:+ ">")
          end
      end
  end.

Definition to_full_string (this : sid) (σ : state (denote := denote) V D)
    : option string :=
  s ← to_string this σ;
  Some ("[" +:+ type_name +:+ " value=" +:+ s +:+
        (if is_backtraceable then
           match ptr_ (slot_at σ this) ≫= parent_field (objects σ) with
           | Some q => " parent@" +:+ show_pointer q
           | None => " parent=null"
           end
         else "") +:+ "]").

Definition hash (this : sid) (σ : state (denote := denote) V D) : option N :=
  match ptr_ (slot_at σ this) with
  | None => Some 0%N
  | Some p =>
      match hash_method with
      | Some f => f <$> objects σ !! p
      | None =>
          match std_hash with
          | Some f => f <$> objects σ !! p
          | None => hash_string <$> to_full_string this σ
          end
      end
  end.

(** [full_copy()]: [out] is the slot that is returned, [fresh] the address
    of the object that [clone()] or the copy constructor allocates.  [None] when
    the owned address has no live object or the fuel of the adoption runs
    out. *)
Definition full_copy (fuel : nat) (this out : sid) (fresh : ptr)
    (σ : state (denote := denote) V D)
    : option (thrown_or (state (denote := denote) V D)) :=
  match ptr_ (slot_at σ this) with
  | None => Some (Returned (construct out (parent_ (slot_at σ this)) σ))
  | Some p =>
      match clone_method with
      | Some cl =>
          o ← objects σ !! p;
          Returned <$>
            construct_adopt fuel out (parent_ (slot_at σ this)) (Some fresh)
              (State (<[fresh := cl o]> (objects σ)) (slots σ))
      | None =>
          match copy_constructor with
          | Some cc =>
              o ← objects σ !! p;
              Returned <$>
                construct_adopt fuel out (parent_ (slot_at σ this)) (Some fresh)
                  (State (<[fresh := cc o]> (objects σ)) (slots σ))
          | None =>
              Some (Logic_error
                "child_unique_ptr::full_copy(): T is not cloneable or copy-constructible")
          end
      end
  end.

(** [copy()] delegates to [full_copy()]. *)
Definition copy (fuel : nat) (this out : sid) (fresh : ptr)
    (σ : state (denote := denote) V D)
    : option (thrown_or (state (denote := denote) V D)) :=
  full_copy fuel this out fresh σ.

Definition length (this : sid) (σ : state (denote := denote) V D)
    : option (thrown_or N) :=
  match ptr_ (slot_at σ this) with
  | None => Some (Returned 0%N)
  | Some p =>
      match size_method with
      | Some f => Returned ∘ f <$> objects σ !! p
      | None =>
          match length_method with
          | Some f => Returned ∘ f <$> objects σ !! p
          | None =>
              Some (Logic_error
                "child_unique_ptr::length(): T has no size()/length()")
          end
      end
  end.

(** [to_text()] and [to_full_text()], also the free functions [to_text] and
    [to_text_full] of pyl_text.h on a [child_unique_ptr]. *)
Definition to_text (this : sid) (σ : state (denote := denote) V D)
    : option Text :=
  MkText <$> to_string this σ.

Definition to_full_text (this : sid) (σ : state (denote := denote) V D)
    : option Text :=
  MkText <$> to_full_string this σ.

End Defs.
End Service.

(** The helpers at the test type.  [Node] has [to_string()] and nothing
    else that the helpers look for: its slot members make it neither
    copyable nor cloneable.  The type name, the print of a pointer and the
    hash of a string are left to the implementation; the three functions
    here stand for them. *)
Module NodeService.

#[export] Instance Node_capabilities : Service.Capabilities (V := NodeTest.Node) := {|
  Service.type_name := "4Node";
  Service.show_pointer := pretty;
  Service.to_string_method :=
    Some (λ o, "Node(" +:+ pretty (NodeTest.value (body o)) +:+ ")");
  Service.stream_insert := None;
  Service.hash_method := None;
  Service.std_hash := None;
  Service.hash_string := λ s, N.of_nat (String.length s);
  Service.clone_method := None;
  Service.copy_constructor := None;
  Service.size_method := None;
  Service.length_method := None
|}.

(** A value type that has a copy constructor, which copies the whole
    object, and nothing else. *)
Definition copyable_capabilities : Service.Capabilities (V := NodeTest.Node) := {|
  Service.type_name := "8Copyable";
  Service.show_pointer := pretty;
  Service.to_string_method := None;
  Service.stream_insert := None;
  Service.hash_method := None;
  Service.std_hash := None;
  Service.hash_string := λ s, N.of_nat (String.length s);
  Service.clone_method := None;
  Service.copy_constructor := Some (λ o, o);
  Service.size_method := None;
  Service.length_method := None
|}.

End NodeService.

(** ** The literal suffixes of pyl_types.h *)

Module Literals.

(** The argument of a literal operator is an [unsigned long long]. *)
Definition ull (v : Z) : Prop := (0 ≤ v < 2 ^ 64)%Z.

(** [static_cast<uN>(v)]: the value modulo [2^N]. *)
Definition to_unsigned (bits v : Z) : Z := (v mod 2 ^ bits)%Z.

(** [static_cast<iN>(v)]: the value of the range of [iN] that is congruent
    to [v] modulo [2^N] (C++20). *)
Definition to_signed (bits v : Z) : Z :=
  let r := (v mod 2 ^ bits)%Z in
  if decide (r < 2 ^ (bits - 1))%Z then r else (r - 2 ^ bits)%Z.

Definition operator_u8 (v : Z) : Z := to_unsigned 8 v.
Definition operator_u16 (v : Z) : Z := to_unsigned 16 v.
Definition operator_u32 (v : Z) : Z := to_unsigned 32 v.
Definition operator_u64 (v : Z) : Z := to_unsigned 64 v.
Definition operator_u128 (v : Z) : Z := to_unsigned 128 v.

Definition operator_i8 (v : Z) : Z := to_signed 8 v.
Definition operator_i16 (v : Z) : Z := to_signed 16 v.
Definition operator_i32 (v : Z) : Z := to_signed 32 v.
Definition operator_i64 (v : Z) : Z := to_signed 64 v.
Definition operator_i128 (v : Z) : Z := to_signed 128 v.

(** The unsigned and the signed suffixes, each with its width; the 128-bit
    ones exist where the compiler has [__int128]. *)
Definition unsigned_suffixes : list ((Z → Z) * Z) :=
  [(operator_u8, 8); (operator_u16, 16); (operator_u32, 32);
   (operator_u64, 64); (operator_u128, 128)]%Z.

Definition signed_suffixes : list ((Z → Z) * Z) :=
  [(operator_i8, 8); (operator_i16, 16); (operator_i32, 32);
   (operator_i64, 64); (operator_i128, 128)]%Z.

End Literals.

(** ** The format strings of pyl_text.h *)

Module Format.

Inductive TokenKind := Text | Placeholder.

(** A token; [sv] is the part of the format literal that the
    [std::string_view] covers. *)
Record Token := MkToken { kind : TokenKind; sv : list ascii }.

(** [while (j < N - 1 && fmt[j] != c) ++j;] over the characters [rest] that
    are left from index [j] on: the index at which the loop stops. *)
Fixpoint scan (c : ascii) (rest : list ascii) (j : nat) : nat :=
  match rest with
  | [] => j
  | x :: rest' => if decide (x = c) then j else scan c rest' (S j)
  end.

Definition scan_from (c : ascii) (fmt : list ascii) (j : nat) : nat :=
  scan c (drop j fmt) j.

(** The loop of [parse_format] on the characters [fmt] of the literal (the
    terminating zero left out, so [N - 1] is [length fmt]); [tokens] are the
    tokens stored so far.  Every round moves [i] forward, and [fuel] bounds
    the rounds. *)
Fixpoint parse_loop (fuel : nat) (fmt : list ascii) (i : nat)
    (tokens : list Token) : list Token :=
  match fuel with
  | O => tokens
  | S fuel' =>
      match fmt !! i with
      | None => tokens
      | Some c =>
          if decide (c = "{"%char) then
            let j := scan_from "}" fmt (i + 1) in
            if decide (length fmt ≤ j) then
              (* unmatched '{': the rest is text *)
              tokens ++ [MkToken Text (take (length fmt - i) (drop i fmt))]
            else
              parse_loop fuel' fmt (j + 1)
                (tokens ++
                 [MkToken Placeholder (take (j - (i + 1)) (drop (i + 1) fmt))])
          else
            let start := i in
            let i' := scan_from "{" fmt i in
            parse_loop fuel' fmt i'
              (tokens ++ [MkToken Text (take (i' - start) (drop start fmt))])
      end
  end.

(** [parse_format(fmt)]: the tokens [pf.tokens[0 .. pf.count)]. *)
Definition parse_format (fmt : list ascii) : list Token :=
  parse_loop (length fmt) fmt 0 [].

(** The types [any_to_string] tells apart; [FOther] stands for every other
    type. *)
Inductive ftag :=
  | FInt | FDouble | FFloat | FLong | FUnsigned
  | FString | FConstCharPtr | FCharPtr | FBool | FOther.

(** The value a field of each type holds; [F] stands for the
    floating-point values. *)
Definition fdenote (F : Type) (t : ftag) : Type :=
  match t with
  | FInt | FLong | FUnsigned => Z
  | FDouble | FFloat => F
  | FString | FConstCharPtr | FCharPtr => string
  | FBool => bool
  | FOther => unit
  end.

Abbreviation FieldMap F := (gmap string (any (denote := fdenote F))).

Section Fields.
(** [std::to_string] on floating-point values. *)
Context {F : Type} (float_to_string : F → string).

(** [m.emplace(name, value)]: an entry that is there stays. *)
Definition add_field (m : FieldMap F) (name : string)
    (value : any (denote := fdenote F)) : FieldMap F :=
  match m !! name with
  | Some _ => m
  | None => <[name := value]> m
  end.

(** [make_field_map(pairs...)] *)
Definition make_field_map
    (pairs : list (string * any (denote := fdenote F))) : FieldMap F :=
  fold_left (λ m p, add_field m p.1 p.2) pairs ∅.

Definition any_to_string (a : any (denote := fdenote F)) : string :=
  match a with
  | None => "<null>"
  | Some (existT FInt v) => pretty (v : Z)
  | Some (existT FDouble v) => float_to_string v
  | Some (existT FFloat v) => float_to_string v
  | Some (existT FLong v) => pretty (v : Z)
  | Some (existT FUnsigned v) => pretty (v : Z)
  | Some (existT FString v) => v
  | Some (existT FConstCharPtr v) => v
  | Some (existT FCharPtr v) => v
  | Some (existT FBool v) => if (v : bool) then "true" else "false"
  | Some (existT FOther _) => "<unknown>"
  end.

(** One round of the loop of [format_with_parsed]. *)
Definition format_token (fields : FieldMap F) (out : list ascii) (t : Token)
    : list ascii :=
  match kind t with
  | Text => out ++ sv t
  | Placeholder =>
      match fields !! string_of_list_ascii (sv t) with
      | Some a => out ++ list_ascii_of_string (any_to_string a)
      | None => (out ++ ["{"%char]) ++ sv t ++ ["}"%char]
      end
  end.

Definition format_with_parsed (pf : list Token) (fields : FieldMap F)
    : list ascii :=
  fold_left (format_token fields) pf [].

(** [__F(fmt, fields)]: what is written to [std::cerr]. *)
Definition __F (fmt : list ascii) (fields : FieldMap F) : list ascii :=
  format_with_parsed (parse_format fmt) fields.

End Fields.

(** [std::to_string] on floating-point values where a field map holds
    none. *)
Definition no_floats (x : Empty_set) : string := match x with end.

End Format.

(** ** Strong numbers (pyl_strong_num.h) *)

Module StrongNum.

Inductive NumKind := Uint | Int | Float | Size.
Inductive NumBits := B8 | B16 | B32 | B64 | B128.

Definition bits (b : NumBits) : Z :=
  match b with B8 => 8 | B16 => 16 | B32 => 32 | B64 => 64 | B128 => 128 end.

(** The integer types: [bool], [std::uintN_t] and [std::intN_t] (at 128
    bits, [unsigned __int128] and [__int128]). *)
Inductive itype := bool_t | uint_t (b : NumBits) | int_t (b : NumBits).

Inductive ftype := float_t | double_t | long_double_t.

(** The arithmetic types a [StrongNumber] is made of. *)
Inductive ctype := integer (t : itype) | floating (t : ftype).

#[export] Instance NumBits_eq_dec : EqDecision NumBits.
Proof. solve_decision. Defined.
#[export] Instance itype_eq_dec : EqDecision itype.
Proof. solve_decision. Defined.
#[export] Instance ftype_eq_dec : EqDecision ftype.
Proof. solve_decision. Defined.
#[export] Instance ctype_eq_dec : EqDecision ctype.
Proof. solve_decision. Defined.

(** [NumType<K, B>::type]; [None] where the template has no
    specialisation. *)
Definition NumType (K : NumKind) (B : NumBits) : option ctype :=
  match K, B with
  | Uint, b => Some (integer (uint_t b))
  | Int, b => Some (integer (int_t b))
  | Float, B32 => Some (floating float_t)
  | Float, B64 => Some (floating double_t)
  | Float, B128 => Some (floating long_double_t)
  | Float, _ => None
  | Size, b => Some (integer (uint_t b))
  end.

Section Traits.
(** What the implementation decides: whether the type traits count the
    128-bit integers as integral, and the size of [long double]. *)
Context (int128_is_integral : bool) (sizeof_long_double : Z).

Definition is_integral (t : ctype) : bool :=
  match t with
  | integer (uint_t B128) | integer (int_t B128) => int128_is_integral
  | integer _ => true
  | floating _ => false
  end.

Definition is_floating_point (t : ctype) : bool :=
  match t with
  | integer _ => false
  | floating _ => true
  end.

(** [std::is_signed_v<T>]: false for a type that is not arithmetic. *)
Definition is_signed (t : ctype) : bool :=
  match t with
  | integer bool_t | integer (uint_t _) => false
  | integer (int_t B128) => int128_is_integral
  | integer (int_t _) => true
  | floating _ => true
  end.

(** [sizeof(T)], with [sizeof(bool)] at 1 as on the platforms the library
    is built for. *)
Definition sizeof (t : ctype) : Z :=
  match t with
  | integer bool_t => 1
  | integer (uint_t b) | integer (int_t b) => bits b / 8
  | floating float_t => 4
  | floating double_t => 8
  | floating long_double_t => sizeof_long_double
  end.

(** [is_widening_type<From, To>::value] *)
Definition is_widening_type (From To : ctype) : bool :=
  if decide (From = To) then true
  else if is_integral From && is_integral To &&
          bool_decide (is_signed From = is_signed To)
  then bool_decide (sizeof From ≤ sizeof To)%Z
  else if is_floating_point From && is_floating_point To
  then bool_decide (sizeof From ≤ sizeof To)%Z
  else false.

End Traits.

(** The values of an integer type. *)
Definition in_range (t : itype) (v : Z) : Prop :=
  match t with
  | bool_t => (0 ≤ v ≤ 1)%Z
  | uint_t b => (0 ≤ v < 2 ^ bits b)%Z
  | int_t b => (- 2 ^ (bits b - 1) ≤ v < 2 ^ (bits b - 1))%Z
  end.

(** [static_cast<U>(value_)] to an integer type [U] from an integer value. *)
Definition static_cast (U : itype) (v : Z) : Z :=
  match U with
  | bool_t => if decide (v = 0)%Z then 0%Z else 1%Z
  | uint_t b => Literals.to_unsigned (bits b) v
  | int_t b => Literals.to_signed (bits b) v
  end.

(** [StrongNumber<T, Tag>] with [T] an integer type. *)
Record StrongNumber (T : itype) := MkStrongNumber { value_ : Z }.
Arguments MkStrongNumber {T} value_.
Arguments value_ {T} _.

(** [operator StrongNumber<U, Tag>()], the body the implicit and the
    explicit conversion share. *)
Definition convert {T : itype} (U : itype) (x : StrongNumber T)
    : StrongNumber U :=
  MkStrongNumber (static_cast U (value_ x)).

End StrongNum.

(** ** Properties *)

Section Properties.
Context {tag : Type} `{EqDecision tag} {denote : tag → Type} {V D : Type}.
Context `{!Traits} `{!Deleter (denote := denote) V D} `{!Members V}.
Context `{!EqCapability V}.

Implicit Types (h : gmap ptr (object V)) (σ : state (denote := denote) V D).
Implicit Types (cur a start : option ptr) (this other : sid).

(** *** Walks along back-references *)

Lemma ancestor_None n h : ancestor n h None = None.
Proof. induction n as [|n IH]; [done | apply IH]. Qed.

Lemma ancestor_last n h cur :
  ancestor (S n) h cur = ancestor n h cur ≫= parent_field h.
Proof.
  revert cur. induction n as [|n IH]; intros cur; [done |].
  change (ancestor (S (S n)) h cur)
    with (ancestor (S n) h (cur ≫= parent_field h)).
  by rewrite IH.
Qed.

Lemma in_walk_start h c : in_walk h (Some c) c.
Proof. by exists 0. Qed.

Lemma in_walk_step h c x :
  in_walk h (parent_field h c) x → in_walk h (Some c) x.
Proof. intros [n Hn]. by exists (S n). Qed.

Lemma in_walk_inv h c x :
  in_walk h (Some c) x → c = x ∨ in_walk h (parent_field h c) x.
Proof.
  intros [[|n] Hn]; simpl in Hn; [left; congruence | right; by exists n].
Qed.

Lemma not_in_walk_None h x : ¬ in_walk h None x.
Proof. intros [n Hn]. by rewrite ancestor_None in Hn. Qed.

Lemma walk_unfold fuel h a c :
  walk fuel h a (Some c) =
  if decide (Some c = a) then Some true
  else match fuel with
       | O => None
       | S n => walk n h a (parent_field h c)
       end.
Proof. by destruct fuel. Qed.

Lemma walk_None fuel h a : walk fuel h a None = Some false.
Proof. by destruct fuel. Qed.

Lemma walk_mono fuel fuel' h a cur b :
  walk fuel h a cur = Some b → fuel ≤ fuel' → walk fuel' h a cur = Some b.
Proof.
  revert fuel' cur. induction fuel as [|f IH]; intros fuel' cur Hw Hle.
  - destruct cur as [c|]; [| by rewrite walk_None in *].
    rewrite walk_unfold in *. by case_decide.
  - destruct cur as [c|]; [| by rewrite walk_None in *].
    rewrite walk_unfold in *. case_decide; [done |].
    destruct fuel' as [|f']; [lia |]. apply IH; [done | lia].
Qed.

Lemma walk_halts_result n h a cur fuel :
  ancestor n h cur = None ∨ ancestor n h cur = a →
  n ≤ fuel → ∃ b, walk fuel h a cur = Some b.
Proof.
  revert cur fuel. induction n as [|n IH]; intros cur fuel Hn Hle.
  - destruct cur as [c|]; [| rewrite walk_None; eauto].
    rewrite walk_unfold. simpl in Hn.
    case_decide; [eauto |]. by destruct Hn.
  - destruct cur as [c|]; [| rewrite walk_None; eauto].
    rewrite walk_unfold. case_decide; [eauto |].
    destruct fuel as [|f]; [lia |]. apply IH; [done | lia].
Qed.

Lemma walk_found n h c cur fuel :
  ancestor n h cur = Some c → n ≤ fuel → walk fuel h (Some c) cur = Some true.
Proof.
  revert cur fuel. induction n as [|n IH]; intros cur fuel Hn Hle.
  - simpl in Hn. subst cur. rewrite walk_unfold. by case_decide.
  - destruct cur as [c0|]; [| by rewrite ancestor_None in Hn].
    rewrite walk_unfold. case_decide; [done |].
    destruct fuel as [|f]; [lia |]. apply IH; [done | lia].
Qed.

Lemma walk_true_inv fuel h a cur :
  walk fuel h a cur = Some true →
  ∃ n c, n ≤ fuel ∧ a = Some c ∧ ancestor n h cur = Some c.
Proof.
  revert cur. induction fuel as [|f IH]; intros cur Hw.
  - destruct cur as [c|]; [| by rewrite walk_None in Hw].
    rewrite walk_unfold in Hw. case_decide; [| done].
    exists 0, c. by subst.
  - destruct cur as [c|]; [| by rewrite walk_None in Hw].
    rewrite walk_unfold in Hw. case_decide.
    + exists 0, c. split; [lia |]. by subst.
    + destruct (IH _ Hw) as (n & x & Hle & -> & Hn).
      exists (S n), x. split; [lia | split; [done | exact Hn]].
Qed.

Lemma walk_false_inv fuel h a cur :
  walk fuel h a cur = Some false →
  (∃ n, n ≤ fuel ∧ ancestor n h cur = None) ∧
  (∀ c, a = Some c → ¬ in_walk h cur c).
Proof.
  revert cur. induction fuel as [|f IH]; intros cur Hw.
  - destruct cur as [c|].
    + rewrite walk_unfold in Hw. by case_decide.
    + split; [by exists 0 | intros; apply not_in_walk_None].
  - destruct cur as [c|].
    + rewrite walk_unfold in Hw. case_decide; [done |].
      destruct (IH _ Hw) as [(n & Hle & Hn) Hnot]. split.
      * exists (S n). split; [lia | exact Hn].
      * intros x -> [?|?]%in_walk_inv; [congruence | by eapply Hnot].
    + split; [exists 0; split; [lia | done] | intros; apply not_in_walk_None].
Qed.

Lemma walk_false_not_in fuel h c cur :
  walk fuel h (Some c) cur = Some false → ¬ in_walk h cur c.
Proof. intros [_ Hnot]%walk_false_inv. by apply Hnot. Qed.

Lemma walk_diverges fuel h a cur :
  ¬ walk_halts h a cur → walk fuel h a cur = None.
Proof.
  intros Hno. destruct (walk fuel h a cur) as [[|]|] eqn:Hw; [| | done].
  - destruct (walk_true_inv _ _ _ _ Hw) as (n & c & _ & -> & Hn).
    destruct Hno. exists n. by right.
  - destruct (walk_false_inv _ _ _ _ Hw) as [(n & _ & Hn) _].
    destruct Hno. exists n. by left.
Qed.

Lemma would_create_cycle_mono fuel fuel' h a cur b :
  would_create_cycle fuel h a cur = Some b → fuel ≤ fuel' →
  would_create_cycle fuel' h a cur = Some b.
Proof.
  unfold would_create_cycle.
  destruct is_backtraceable, is_parent; simpl; eauto using walk_mono.
Qed.

Lemma would_create_cycle_walk fuel h a cur :
  is_backtraceable = true → is_parent = true →
  would_create_cycle fuel h a cur = walk fuel h a cur.
Proof. unfold would_create_cycle. by intros -> ->. Qed.

(** *** Slots and the object store *)

Lemma slot_at_write_eq i (s : slot D) σ : slot_at (write_slot i s σ) i = s.
Proof. unfold slot_at, write_slot. simpl. by rewrite lookup_insert_eq. Qed.

Lemma slot_at_write_ne i j (s : slot D) σ :
  i ≠ j → slot_at (write_slot i s σ) j = slot_at σ j.
Proof.
  intros Hne. unfold slot_at, write_slot. simpl.
  by rewrite lookup_insert_ne.
Qed.

Lemma slot_at_slots σ τ i : slots σ = slots τ → slot_at σ i = slot_at τ i.
Proof. unfold slot_at. by intros ->. Qed.

Lemma slots_set_parent this σ : slots (set_parent_on_child this σ) = slots σ.
Proof.
  unfold set_parent_on_child.
  by destruct (ptr_ (slot_at σ this)), is_backtraceable.
Qed.

Lemma slots_clear_parent this σ : slots (clear_parent_on_child this σ) = slots σ.
Proof.
  unfold clear_parent_on_child.
  by destruct (ptr_ (slot_at σ this)), is_backtraceable.
Qed.

Lemma slots_destroy_owned this σ : slots (destroy_owned this σ) = slots σ.
Proof.
  unfold destroy_owned. destruct (ptr_ (slot_at σ this)); [| done].
  simpl. apply slots_clear_parent.
Qed.

Lemma slot_at_set_parent this σ i :
  slot_at (set_parent_on_child this σ) i = slot_at σ i.
Proof. apply slot_at_slots, slots_set_parent. Qed.

Lemma slot_at_clear_parent this σ i :
  slot_at (clear_parent_on_child this σ) i = slot_at σ i.
Proof. apply slot_at_slots, slots_clear_parent. Qed.

Lemma slot_at_destroy_owned this σ i :
  slot_at (destroy_owned this σ) i = slot_at σ i.
Proof. apply slot_at_slots, slots_destroy_owned. Qed.

Lemma objects_set_parent this σ p :
  is_backtraceable = true → ptr_ (slot_at σ this) = Some p →
  objects (set_parent_on_child this σ) =
  alter (λ o, Object (parent_ (slot_at σ this)) (body o)) p (objects σ).
Proof. unfold set_parent_on_child. by intros -> ->. Qed.

Lemma objects_clear_parent this σ p :
  is_backtraceable = true → ptr_ (slot_at σ this) = Some p →
  objects (clear_parent_on_child this σ) =
  alter (λ o, Object None (body o)) p (objects σ).
Proof. unfold clear_parent_on_child. by intros -> ->. Qed.

Lemma set_parent_empty this σ :
  ptr_ (slot_at σ this) = None → set_parent_on_child this σ = σ.
Proof. unfold set_parent_on_child. by intros ->. Qed.

Lemma release_eq σ this :
  release this σ =
  (ptr_ (slot_at σ this),
   write_slot this (set_ptr None (slot_at σ this))
     (clear_parent_on_child this σ)).
Proof. unfold release. by rewrite slot_at_clear_parent. Qed.

(** *** The cycle guard *)

(** C3, as amended: with [T] a [Backtraceable<Parent>] that is also a
    [Parent], the walk of [would_create_cycle] goes through the candidate
    owner [P], [P->parent], [P->parent->parent], ... and stops at the first
    empty reference or at the adoptee [C].  With enough fuel it answers
    [true] when [C] is on the walk and [false] when the walk reaches an
    empty reference without meeting [C]; whenever it answers, the answer is
    [true] exactly when [C] is on the walk; and on a walk that neither
    reaches an empty reference nor meets [C] (a cycle that does not
    contain [C]) it gives no answer, whatever the fuel. *)
Theorem cycle_guard_walk h (P : option ptr) (C : ptr) :
  is_backtraceable = true → is_parent = true →
  (∀ n, ancestor n h P = Some C →
        ∀ fuel, n ≤ fuel → would_create_cycle fuel h (Some C) P = Some true) ∧
  (∀ n, ancestor n h P = None → ¬ in_walk h P C →
        ∀ fuel, n ≤ fuel → would_create_cycle fuel h (Some C) P = Some false) ∧
  (∀ fuel b, would_create_cycle fuel h (Some C) P = Some b →
             (b = true ↔ in_walk h P C)) ∧
  (¬ walk_halts h (Some C) P →
   ∀ fuel, would_create_cycle fuel h (Some C) P = None).
Proof.
  intros Hbt Hpar. split; [| split; [| split]].
  - intros n Hn fuel Hle. rewrite would_create_cycle_walk by done.
    by eapply walk_found.
  - intros n Hn Hnot fuel Hle. rewrite would_create_cycle_walk by done.
    destruct (walk_halts_result n h (Some C) P fuel) as [[|] Hb];
      [by left | done | | done].
    destruct (walk_true_inv _ _ _ _ Hb) as (k & c & _ & [= <-] & Hk).
    destruct Hnot. by exists k.
  - intros fuel b Hw. rewrite would_create_cycle_walk in Hw by done. split.
    + intros ->.
      destruct (walk_true_inv _ _ _ _ Hw) as (k & c & _ & [= <-] & Hk).
      by exists k.
    + intros Hin. destruct b; [done |].
      by apply walk_false_not_in in Hw.
  - intros Hno fuel. rewrite would_create_cycle_walk by done.
    by apply walk_diverges.
Qed.

(** *** reset *)

Lemma reset_mono fuel fuel' this p σ σ' :
  reset fuel this p σ = Some σ' → fuel ≤ fuel' →
  reset fuel' this p σ = Some σ'.
Proof.
  unfold reset. intros Hr Hle.
  destruct p as [c|], (parent_ (slot_at σ this)) as [P|]; simpl in *; try done.
  destruct (would_create_cycle fuel _ _ _) as [b|] eqn:Hw; [| done].
  by rewrite (would_create_cycle_mono _ _ _ _ _ _ Hw Hle).
Qed.

Lemma emplace_mono fuel fuel' this new_T σ σ' :
  emplace fuel this new_T σ = Some σ' → fuel ≤ fuel' →
  emplace fuel' this new_T σ = Some σ'.
Proof. unfold emplace. destruct (new_T σ). apply reset_mono. Qed.

Lemma reset_refused fuel this p σ :
  (∃ P, parent_ (slot_at σ this) = Some P) →
  would_create_cycle fuel (objects σ) (Some p) (parent_ (slot_at σ this))
    = Some true →
  reset fuel this (Some p) σ = Some σ.
Proof. intros [P HP] Hw. unfold reset. rewrite HP in *. by rewrite Hw. Qed.

Lemma reset_refuses_on_walk σ this (P p : ptr) n fuel :
  is_backtraceable = true → is_parent = true →
  parent_ (slot_at σ this) = Some P →
  ancestor n (objects σ) (Some P) = Some p →
  n ≤ fuel → reset fuel this (Some p) σ = Some σ.
Proof.
  intros Hbt Hpar HP Hn Hle.
  apply reset_refused; [eauto |]. rewrite HP.
  rewrite would_create_cycle_walk by done. by eapply walk_found.
Qed.

(** *** release *)

(** C5: a slot owns the live value [p].  [release] returns [p]; [p] is
    still live afterwards, with the contents it had except for its
    back-reference, which is empty (a [T] that is not [Backtraceable] has
    no back-reference, and [p] is then as it was); no other object is
    touched; the slot is empty, and its recorded parent, its deleter, its
    attribute store and its method registry are what they were; the other
    slots are unchanged. *)
Theorem release_detaches σ this (p : ptr) (o : object V) :
  ptr_ (slot_at σ this) = Some p →
  objects σ !! p = Some o →
  ∃ σ', release this σ = (Some p, σ') ∧
        objects σ' !! p =
          Some (if is_backtraceable then Object None (body o) else o) ∧
        (∀ q, q ≠ p → objects σ' !! q = objects σ !! q) ∧
        ptr_ (slot_at σ' this) = None ∧
        parent_ (slot_at σ' this) = parent_ (slot_at σ this) ∧
        deleter_ (slot_at σ' this) = deleter_ (slot_at σ this) ∧
        dyn_fields_ (slot_at σ' this) = dyn_fields_ (slot_at σ this) ∧
        dyn_fns_ (slot_at σ' this) = dyn_fns_ (slot_at σ this) ∧
        (∀ j, j ≠ this → slot_at σ' j = slot_at σ j).
Proof.
  intros Hp Ho. eexists. rewrite release_eq, Hp. split; [done |].
  rewrite slot_at_write_eq. simpl.
  assert (∀ q, objects (clear_parent_on_child this σ) !! q =
               if decide (q = p)
               then Some (if is_backtraceable then Object None (body o) else o)
               else objects σ !! q) as Hobj.
  { intros q. unfold clear_parent_on_child. rewrite Hp.
    destruct is_backtraceable; simpl.
    - case_decide as Hq; [subst; by rewrite lookup_alter_eq, Ho |].
      by rewrite lookup_alter_ne.
    - case_decide as Hq; [by subst | done]. }
  repeat split.
  - by rewrite Hobj, decide_True.
  - intros q Hq. by rewrite Hobj, decide_False.
  - intros j Hj. rewrite slot_at_write_ne by done.
    apply slot_at_clear_parent.
Qed.

(** *** swap *)

(** C6: after [swap] the two slots have exchanged the owned value, the
    deleter, the attribute store and the method registry, and each has kept
    its recorded parent.  When [T] is [Backtraceable], the two slots do not
    own the same object and the values are live, the back-reference of the
    value each slot now owns is the recorded parent of that slot. *)
Theorem swap_exchanges σ this other :
  let σ' := swap this other σ in
  (ptr_ (slot_at σ' this) = ptr_ (slot_at σ other) ∧
   ptr_ (slot_at σ' other) = ptr_ (slot_at σ this) ∧
   deleter_ (slot_at σ' this) = deleter_ (slot_at σ other) ∧
   deleter_ (slot_at σ' other) = deleter_ (slot_at σ this) ∧
   dyn_fields_ (slot_at σ' this) = dyn_fields_ (slot_at σ other) ∧
   dyn_fields_ (slot_at σ' other) = dyn_fields_ (slot_at σ this) ∧
   dyn_fns_ (slot_at σ' this) = dyn_fns_ (slot_at σ other) ∧
   dyn_fns_ (slot_at σ' other) = dyn_fns_ (slot_at σ this) ∧
   parent_ (slot_at σ' this) = parent_ (slot_at σ this) ∧
   parent_ (slot_at σ' other) = parent_ (slot_at σ other)) ∧
  (is_backtraceable = true →
   (this ≠ other → ptr_ (slot_at σ this) ≠ None →
    ptr_ (slot_at σ this) ≠ ptr_ (slot_at σ other)) →
   ∀ i p, (i = this ∨ i = other) →
          ptr_ (slot_at σ' i) = Some p → is_Some (objects σ !! p) →
          parent <$> objects σ' !! p = Some (parent_ (slot_at σ' i))).
Proof.
  intros σ'. subst σ'. unfold swap.
  set (a := slot_at σ this). set (b := slot_at σ other).
  set (σ2 := write_slot other _ (write_slot this _ σ)).
  assert (slot_at σ2 other = Slot (parent_ b) (ptr_ a) (deleter_ a)
                               (dyn_fields_ a) (dyn_fns_ a)) as Hother.
  { apply slot_at_write_eq. }
  assert (slot_at σ2 this = Slot (parent_ a) (ptr_ b) (deleter_ b)
                              (dyn_fields_ b) (dyn_fns_ b)) as Hthis.
  { destruct (decide (this = other)) as [->|Hne].
    - rewrite Hother. by subst a b.
    - unfold σ2. rewrite slot_at_write_ne by done. apply slot_at_write_eq. }
  assert (objects σ2 = objects σ) as Hobj by done.
  split.
  - rewrite !slot_at_set_parent, Hthis, Hother. simpl. done.
  - intros Hbt Huniq i p Hi Hp [o Ho].
    rewrite !slot_at_set_parent in *.
    assert (∀ q, ptr_ (slot_at σ2 this) = Some q →
                 ptr_ (slot_at σ2 other) = Some q → this = other) as Hdiff.
    { rewrite Hthis, Hother. simpl. intros q Hq1 Hq2.
      destruct (decide (this = other)) as [|Hne]; [done |].
      destruct (Huniq Hne); fold a b; congruence. }
    destruct (ptr_ (slot_at σ2 other)) as [q2|] eqn:H2.
    + rewrite (objects_set_parent other _ q2);
        [| done | by rewrite slot_at_set_parent].
      rewrite slot_at_set_parent.
      destruct (ptr_ (slot_at σ2 this)) as [q1|] eqn:H1.
      * rewrite (objects_set_parent this _ q1) by done. rewrite Hobj.
        destruct Hi as [-> | ->].
        -- rewrite H1 in Hp. injection Hp as ->.
           destruct (decide (q2 = p)) as [->|Hne].
           ++ rewrite (Hdiff p) by done.
              by rewrite lookup_alter_eq, lookup_alter_eq, Ho.
           ++ by rewrite lookup_alter_ne, lookup_alter_eq, Ho.
        -- rewrite H2 in Hp. injection Hp as ->.
           rewrite lookup_alter_eq.
           destruct (decide (q1 = p)) as [->|Hne].
           ++ by rewrite lookup_alter_eq, Ho.
           ++ by rewrite lookup_alter_ne, Ho.
      * rewrite (set_parent_empty this) by done. rewrite Hobj.
        destruct Hi as [-> | ->]; [congruence |].
        rewrite H2 in Hp. injection Hp as ->.
        by rewrite lookup_alter_eq, Ho.
    + rewrite (set_parent_empty other) by (by rewrite slot_at_set_parent).
      destruct Hi as [-> | ->]; [| congruence].
      rewrite (objects_set_parent this _ p) by done. rewrite Hobj.
      by rewrite lookup_alter_eq, Ho.
Qed.

(** *** reset and the dynamic stores *)

Lemma reset_accepts fuel this p σ :
  match p, parent_ (slot_at σ this) with
  | Some _, Some _ =>
      would_create_cycle fuel (objects σ) p (parent_ (slot_at σ this))
  | _, _ => Some false
  end = Some false →
  reset fuel this p σ =
  Some (set_parent_on_child this
          (write_slot this (set_ptr p (slot_at σ this)) (destroy_owned this σ))).
Proof.
  intros Hw. unfold reset. rewrite Hw. simpl.
  by rewrite slot_at_destroy_owned.
Qed.

Lemma guard_answers n fuel h a start :
  ancestor n h start = None ∨ ancestor n h start = a → n ≤ fuel →
  ∃ b, would_create_cycle fuel h a start = Some b.
Proof.
  intros Hn Hle. unfold would_create_cycle.
  destruct is_backtraceable, is_parent; simpl; eauto using walk_halts_result.
Qed.

Lemma guard_true_in_walk fuel h a start :
  would_create_cycle fuel h a start = Some true →
  ∃ c, a = Some c ∧ in_walk h start c.
Proof.
  unfold would_create_cycle.
  destruct is_backtraceable, is_parent; simpl; try done.
  intros (n & c & _ & -> & Hn)%walk_true_inv. exists c. split; [done |].
  by exists n.
Qed.

(** C7: a [reset] whose cycle check comes to an answer returns, and the
    attribute store and the method registry of the slot, and of every
    other slot, are the very maps they were before, refused or not; when
    the new value is not on the walk from the recorded parent, the slot
    owns the new value afterwards. *)
Theorem reset_keeps_dynamic_stores σ this (p : option ptr) n :
  ancestor n (objects σ) (parent_ (slot_at σ this)) = None ∨
  ancestor n (objects σ) (parent_ (slot_at σ this)) = p →
  ∀ fuel, n ≤ fuel →
  ∃ σ', reset fuel this p σ = Some σ' ∧
        (∀ j, dyn_fields_ (slot_at σ' j) = dyn_fields_ (slot_at σ j) ∧
              dyn_fns_ (slot_at σ' j) = dyn_fns_ (slot_at σ j)) ∧
        ((∀ c, p = Some c →
               ¬ in_walk (objects σ) (parent_ (slot_at σ this)) c) →
         ptr_ (slot_at σ' this) = p).
Proof.
  intros Hn fuel Hle.
  assert (∃ b,
    match p, parent_ (slot_at σ this) with
    | Some _, Some _ =>
        would_create_cycle fuel (objects σ) p (parent_ (slot_at σ this))
    | _, _ => Some false
    end = Some b) as [b Hb].
  { destruct p, (parent_ (slot_at σ this)); eauto using guard_answers. }
  assert (∀ j,
    dyn_fields_ (slot_at (set_parent_on_child this
      (write_slot this (set_ptr p (slot_at σ this)) (destroy_owned this σ))) j)
      = dyn_fields_ (slot_at σ j) ∧
    dyn_fns_ (slot_at (set_parent_on_child this
      (write_slot this (set_ptr p (slot_at σ this)) (destroy_owned this σ))) j)
      = dyn_fns_ (slot_at σ j)) as Hframe.
  { intros j. rewrite slot_at_set_parent.
    destruct (decide (this = j)) as [->|Hne].
    - by rewrite slot_at_write_eq.
    - rewrite slot_at_write_ne by done. by rewrite slot_at_destroy_owned. }
  destruct b.
  - exists σ. split; [| split; [done |]].
    + unfold reset. by rewrite Hb.
    + intros Hnot. destruct p as [c|], (parent_ (slot_at σ this)) as [P|];
        try done.
      apply guard_true_in_walk in Hb as (c' & [= <-] & Hin).
      by destruct (Hnot c).
  - eexists. split; [by apply reset_accepts |]. split; [done |].
    intros _. rewrite slot_at_set_parent. by rewrite slot_at_write_eq.
Qed.

(** *** Moves *)

Lemma ancestor_alter_off_walk (f : object V → object V) p h start :
  (∀ k, ancestor k h start ≠ Some p) →
  ∀ k, ancestor k (alter f p h) start = ancestor k h start.
Proof.
  intros Hoff k. induction k as [|k IH]; [done |].
  rewrite !ancestor_last, IH.
  destruct (ancestor k h start) as [c|] eqn:Hc; [| done]. simpl.
  unfold parent_field. rewrite lookup_alter_ne; [done |].
  intros ->. by apply (Hoff k).
Qed.

Lemma move_construct_eq σ this other :
  move_construct this other σ =
  set_parent_on_child this
    (write_slot this
       (Slot (parent_ (slot_at σ other)) (ptr_ (slot_at σ other))
             (deleter_ (slot_at σ other)) (dyn_fields_ (slot_at σ other))
             (dyn_fns_ (slot_at σ other)))
       (write_slot other
          (Slot (parent_ (slot_at σ other)) None
                (deleter_ (slot_at σ other)) None None)
          (write_slot other (set_ptr None (slot_at σ other))
             (clear_parent_on_child other σ)))).
Proof.
  unfold move_construct. rewrite release_eq. by rewrite slot_at_write_eq.
Qed.

Lemma destroyed_slot_same h i : ¬ destroyed_slot h h i.
Proof. intros (q & o & Hq & Hn & _). congruence. Qed.

Lemma destroyed_slot_set_parent h this σ i :
  destroyed_slot h (objects (set_parent_on_child this σ)) i ↔
  destroyed_slot h (objects σ) i.
Proof.
  unfold set_parent_on_child.
  destruct (ptr_ (slot_at σ this)) as [c|]; [| done].
  destruct is_backtraceable; [| done]. simpl.
  unfold destroyed_slot, map_Exists.
  by setoid_rewrite lookup_alter_None.
Qed.

Lemma guard_off fuel h a start :
  is_backtraceable = false ∨ is_parent = false →
  would_create_cycle fuel h a start = Some false.
Proof.
  unfold would_create_cycle. intros [-> | ->]; [done |].
  by destruct is_backtraceable.
Qed.

Lemma lookup_clear_parent this σ (p : ptr) (o : object V) :
  ptr_ (slot_at σ this) = Some p → objects σ !! p = Some o →
  objects (clear_parent_on_child this σ) !! p =
  Some (if is_backtraceable then Object None (body o) else o).
Proof.
  intros Hp Ho. unfold clear_parent_on_child. rewrite Hp.
  destruct is_backtraceable; [| done]. simpl. by rewrite lookup_alter_eq, Ho.
Qed.

Lemma lookup_adopted this σ (p : ptr) (o : object V) :
  ptr_ (slot_at σ this) = Some p → objects σ !! p = Some o →
  objects (set_parent_on_child this σ) !! p =
  Some (if is_backtraceable
        then Object (parent_ (slot_at σ this)) (body o) else o).
Proof.
  intros Hp Ho. unfold set_parent_on_child. rewrite Hp.
  destruct is_backtraceable; [| done]. simpl. by rewrite lookup_alter_eq, Ho.
Qed.

(** C4, as amended: a slot [other] owns the live value [p].
    Move-construction of a new slot from [other] leaves [other] empty and
    without dynamic stores; the new slot has the recorded parent, the
    deleter and both dynamic stores of [other] and owns [p]; when [T] is
    [Backtraceable] the back-reference of [p] is that recorded parent, and
    otherwise [p] is untouched.  Move-assignment to a different slot [this]
    does the same with the recorded parent of [this], under three
    conditions: the cycle check lets [this] adopt [p] (when [T] is a
    [Backtraceable] [Parent], the walk from the recorded parent of [this]
    ends without meeting [p]; otherwise there is no check); the destruction
    of the value [this] owned before leaves [p] alive; and it leaves the
    slots [this] and [other] alive, that is, neither is a member of an
    object that this destruction removes. *)
Theorem move_transfers σ this other (p : ptr) (o : object V) :
  this ≠ other →
  ptr_ (slot_at σ other) = Some p →
  objects σ !! p = Some o →
  (let σ' := move_construct this other σ in
   ptr_ (slot_at σ' other) = None ∧
   ptr_ (slot_at σ' this) = Some p ∧
   parent_ (slot_at σ' this) = parent_ (slot_at σ other) ∧
   objects σ' !! p =
     Some (if is_backtraceable
           then Object (parent_ (slot_at σ' this)) (body o) else o) ∧
   deleter_ (slot_at σ' this) = deleter_ (slot_at σ other) ∧
   dyn_fields_ (slot_at σ' this) = dyn_fields_ (slot_at σ other) ∧
   dyn_fns_ (slot_at σ' this) = dyn_fns_ (slot_at σ other) ∧
   dyn_fields_ (slot_at σ' other) = None ∧
   dyn_fns_ (slot_at σ' other) = None) ∧
  (∀ n,
    (is_backtraceable = true → is_parent = true →
     ancestor n (objects σ) (parent_ (slot_at σ this)) = None ∧
     ¬ in_walk (objects σ) (parent_ (slot_at σ this)) p) →
    is_Some (objects (destroy_owned this (release other σ).2) !! p) →
    ¬ destroyed_slot (objects (release other σ).2)
        (objects (destroy_owned this (release other σ).2)) this →
    ¬ destroyed_slot (objects (release other σ).2)
        (objects (destroy_owned this (release other σ).2)) other →
    ∀ fuel, n ≤ fuel →
    ∃ σ', move_assign fuel this other σ = Some σ' ∧
          ptr_ (slot_at σ' other) = None ∧
          ptr_ (slot_at σ' this) = Some p ∧
          parent_ (slot_at σ' this) = parent_ (slot_at σ this) ∧
          is_Some (objects σ' !! p) ∧
          (is_backtraceable = true →
           parent <$> objects σ' !! p = Some (parent_ (slot_at σ' this))) ∧
          deleter_ (slot_at σ' this) = deleter_ (slot_at σ other) ∧
          dyn_fields_ (slot_at σ' this) = dyn_fields_ (slot_at σ other) ∧
          dyn_fns_ (slot_at σ' this) = dyn_fns_ (slot_at σ other) ∧
          dyn_fields_ (slot_at σ' other) = None ∧
          dyn_fns_ (slot_at σ' other) = None).
Proof.
  intros Hne Hp Ho. split.
  - intros σ'. subst σ'. rewrite move_construct_eq.
    rewrite !slot_at_set_parent, slot_at_write_eq.
    rewrite slot_at_write_ne, slot_at_write_eq by done. simpl.
    repeat split; try done.
    rewrite (lookup_adopted _ _ p (if is_backtraceable
                                   then Object None (body o) else o)).
    + rewrite slot_at_write_eq. simpl. by destruct is_backtraceable.
    + by rewrite slot_at_write_eq.
    + simpl. by apply lookup_clear_parent.
  - intros n Hguard Hlive Hsurvt Hsurv fuel Hle.
    unfold move_assign. rewrite decide_False by done.
    rewrite release_eq in *. rewrite Hp in *. simpl in Hlive, Hsurvt, Hsurv.
    set (σ1 := write_slot other (set_ptr None (slot_at σ other))
                 (clear_parent_on_child other σ)) in *.
    assert (slot_at σ1 this = slot_at σ this) as Hthis.
    { unfold σ1. rewrite slot_at_write_ne by done.
      apply slot_at_clear_parent. }
    assert (slot_at σ1 other = set_ptr None (slot_at σ other)) as Hother.
    { apply slot_at_write_eq. }
    rewrite reset_accepts; cycle 1.
    { rewrite Hthis. destruct (parent_ (slot_at σ this)) as [P|] eqn:HP;
        [| done].
      destruct is_backtraceable eqn:Hbt; [| apply guard_off; by left].
      destruct is_parent eqn:Hpar; [| apply guard_off; by right].
      destruct Hguard as [Hend Hnot]; [done .. |].
      assert (objects σ1 = alter (λ x, Object None (body x)) p (objects σ))
        as Hobj.
      { unfold σ1. simpl. by apply objects_clear_parent. }
      assert (∀ k, ancestor k (objects σ1) (Some P)
                   = ancestor k (objects σ) (Some P)) as Hsame.
      { rewrite Hobj. apply ancestor_alter_off_walk.
        intros k Hk. apply Hnot. by exists k. }
      destruct (guard_answers n fuel (objects σ1) (Some p) (Some P))
        as [[|] Hb]; [left; by rewrite Hsame | done | | done].
      apply guard_true_in_walk in Hb as (c & [= <-] & [k Hk]).
      destruct Hnot. exists k. by rewrite <- Hsame. }
    simpl. rewrite decide_False; cycle 1.
    { intros [Hdead | Hdead]; [apply Hsurvt | apply Hsurv];
        by apply destroyed_slot_set_parent in Hdead. }
    eexists. split; [done |].
    rewrite slot_at_write_eq.
    rewrite slot_at_write_ne, slot_at_write_eq by done.
    rewrite !slot_at_set_parent.
    rewrite slot_at_write_eq.
    rewrite slot_at_write_ne, slot_at_destroy_owned, Hother, Hthis by done.
    simpl. destruct Hlive as [o' Ho'].
    assert (objects (set_parent_on_child this
              (write_slot this (set_ptr (Some p) (slot_at σ this))
                 (destroy_owned this σ1))) !! p
            = Some (if is_backtraceable
                    then Object (parent_ (slot_at σ this)) (body o')
                    else o')) as Hnew.
    { rewrite (lookup_adopted _ _ p o');
        [| by rewrite slot_at_write_eq | done].
      by rewrite slot_at_write_eq. }
    do 3 (split; [done |]). split; [rewrite Hnew; by eexists |].
    split; [intros Hbt; by rewrite Hnew, Hbt |]. by repeat split.
Qed.

(** *** The dynamic stores *)

Lemma any_cast_make_any (t : tag) (v : denote t) :
  any_cast t (make_any v) = Ok v.
Proof.
  unfold any_cast, make_any. destruct (decide (t = t)) as [e|]; [| done].
  by rewrite (proof_irrel e eq_refl).
Qed.

Lemma def_eq (R : option tag) (As : list tag) this name
    (f : fn_type As R) σ :
  def R As this name f σ =
  (Ok (),
   write_slot this
     (set_fns (Some (<[name := call_fn_from_anys As R f]>
                       (default ∅ (dyn_fns_ (slot_at σ this)))))
              (slot_at σ this)) σ).
Proof.
  unfold def, ensure_fns.
  destruct (dyn_fns_ (slot_at σ this)) as [m|] eqn:Hm; simpl; [done |].
  rewrite slot_at_write_eq. unfold write_slot. simpl.
  by rewrite insert_insert_eq.
Qed.

Lemma set_field_eq (t : tag) this key (v : denote t) σ :
  ptr_ (slot_at σ this) ≠ None →
  set_field this key v σ =
  (Ok (),
   write_slot this
     (set_fields (Some (<[key := make_any v]>
                          (default ∅ (dyn_fields_ (slot_at σ this)))))
                 (slot_at σ this)) σ).
Proof.
  intros Hp. unfold set_field, mbind, index, proxy_assign, ensure_fields.
  destruct (ptr_ (slot_at σ this)) eqn:Hq; [| done]. simpl. rewrite Hq.
  destruct (dyn_fields_ (slot_at σ this)) as [m|] eqn:Hm; simpl; [done |].
  rewrite slot_at_write_eq. unfold write_slot. simpl.
  by rewrite insert_insert_eq.
Qed.

Lemma call_fn_from_anys_binary (A B : tag) (R : option tag)
    (f : denote A → denote B → rdenote R) (a : denote A) (b : denote B) :
  call_fn_from_anys [A; B] R f [make_any a; make_any b]
  = Ok (erase_result R (f a b)).
Proof.
  unfold call_fn_from_anys. rewrite decide_False by (simpl; lia).
  cbn [call_fn_from_anys_impl]. rewrite any_cast_make_any. cbn [rbind].
  by rewrite any_cast_make_any.
Qed.

Lemma as_erase_result (R : option tag) (r : rdenote (denote := denote) R) :
  as_ R (CallResult (erase_result R r) true) = Ok r.
Proof.
  destruct R as [t|]; simpl; [apply any_cast_make_any | by destruct r].
Qed.

(** C8: on a slot that owns a value, after [def<R, A, B>(name, f)] the call
    [call<R>(name, a, b)] returns [f(a, b)] ([R] may be [void]); a call with a number of
    arguments other than two throws; on any slot that owns a value, a call
    of a name under which no function is stored throws; and a call,
    thrown or not, leaves the state as it found it. *)
Theorem def_call_round_trip σ this (name : string) (A B : tag)
    (R : option tag) (f : denote A → denote B → rdenote R)
    (a : denote A) (b : denote B) :
  ptr_ (slot_at σ this) ≠ None →
  ∃ σ1, def R [A; B] this name f σ = (Ok (), σ1) ∧
        ptr_ (slot_at σ1 this) = ptr_ (slot_at σ this) ∧
        call R this name [existT A a; existT B b] σ1 = (Ok (f a b), σ1) ∧
        (∀ args, length args ≠ 2 →
           call R this name args σ1
           = (Throw (runtime_error "dynamic call: argument count mismatch"),
              σ1)) ∧
        (∀ τ name' (R' : option tag) args,
           ptr_ (slot_at τ this) ≠ None →
           fns_or_null this τ ≫= (.!! name') = None →
           ∃ e, call R' this name' args τ = (Throw e, τ)).
Proof.
  intros Hp. eexists. split; [apply def_eq |].
  set (σ1 := write_slot this _ σ).
  assert (slot_at σ1 this =
          set_fns (Some (<[name := call_fn_from_anys [A; B] R f]>
                           (default ∅ (dyn_fns_ (slot_at σ this)))))
                  (slot_at σ this)) as Hs by apply slot_at_write_eq.
  split; [by rewrite Hs |]. repeat split.
  - unfold call, mbind, operator_call, fns_or_null. rewrite Hs. simpl.
    destruct (ptr_ (slot_at σ this)); [| done].
    rewrite lookup_insert_eq.
    rewrite (call_fn_from_anys_binary A B R f a b : call_fn_from_anys _ _ _
               [Some (existT A a); Some (existT B b)] = _).
    by rewrite as_erase_result.
  - intros args Hlen.
    unfold call, mbind, operator_call, fns_or_null. rewrite Hs. simpl.
    destruct (ptr_ (slot_at σ this)); [| done].
    rewrite lookup_insert_eq. unfold call_fn_from_anys.
    rewrite length_fmap. simpl. by rewrite decide_True.
  - intros τ name' R' args Hq Hund.
    unfold call, mbind, operator_call.
    destruct (ptr_ (slot_at τ this)); [| done].
    destruct (fns_or_null this τ) as [m|]; [| eauto]. simpl in Hund.
    destruct (m !! name'); [done | eauto].
Qed.

(** C9, as amended: on a slot that owns a value, [exists(K)] is false
    exactly when no entry is stored under [K]; [set(K, V)] returns
    normally, and after it [exists(K)] is true and the read at the type of
    [V] returns [V], whatever was stored under [K] before. *)
Theorem attribute_round_trip σ this (K : string) (t : tag) (v : denote t) :
  ptr_ (slot_at σ this) ≠ None →
  (field_exists this K σ = (Ok false, σ) ↔
   fields_or_null this σ ≫= (.!! K) = None) ∧
  ∃ σ', set_field this K v σ = (Ok (), σ') ∧
        ptr_ (slot_at σ' this) = ptr_ (slot_at σ this) ∧
        field_exists this K σ' = (Ok true, σ') ∧
        get_field t this K σ' = (Ok v, σ').
Proof.
  intros Hp. split.
  - unfold field_exists, mbind, index, proxy_exists.
    destruct (ptr_ (slot_at σ this)); [| done]. simpl.
    destruct (fields_or_null this σ) as [m|]; [| done]. simpl.
    destruct (m !! K) eqn:HK; simpl.
    + split; intros [=].
    + done.
  - eexists. split; [by apply set_field_eq |].
    set (σ' := write_slot this _ σ).
    assert (slot_at σ' this =
            set_fields (Some (<[K := make_any v]>
                                (default ∅ (dyn_fields_ (slot_at σ this)))))
                       (slot_at σ this)) as Hs by apply slot_at_write_eq.
    split; [by rewrite Hs |]. split.
    + unfold field_exists, mbind, index, proxy_exists, fields_or_null.
      rewrite Hs. simpl. destruct (ptr_ (slot_at σ this)); [| done].
      simpl. rewrite Hs. simpl. rewrite lookup_insert_eq.
      by rewrite bool_decide_eq_true_2 by eauto.
    + unfold get_field, mbind, index, proxy_as, fields_or_null.
      rewrite Hs. simpl. destruct (ptr_ (slot_at σ this)); [| done].
      simpl. rewrite Hs. simpl. rewrite lookup_insert_eq.
      by rewrite any_cast_make_any.
Qed.

(** *** equals *)

(** C10: [equals] is true when both slots are empty and false when exactly
    one of them is, and when a slot is empty the answer is the same
    whichever equality capabilities [T] has. *)
Theorem equals_on_empty σ this other :
  (ptr_ (slot_at σ this) = None → ptr_ (slot_at σ other) = None →
   equals this other σ = Some true) ∧
  (ptr_ (slot_at σ this) = None → ptr_ (slot_at σ other) ≠ None →
   equals this other σ = Some false) ∧
  (ptr_ (slot_at σ this) ≠ None → ptr_ (slot_at σ other) = None →
   equals this other σ = Some false) ∧
  (∀ c1 c2 : EqCapability V,
     ptr_ (slot_at σ this) = None ∨ ptr_ (slot_at σ other) = None →
     @equals _ _ _ _ _ c1 this other σ = @equals _ _ _ _ _ c2 this other σ).
Proof.
  unfold equals. repeat split.
  - by intros -> ->.
  - intros ->. by destruct (ptr_ (slot_at σ other)).
  - intros H1 ->. by destruct (ptr_ (slot_at σ this)).
  - intros c1 c2 [-> | ->]; [by destruct (ptr_ (slot_at σ other)) |].
    by destruct (ptr_ (slot_at σ this)).
Qed.

(** *** Acyclicity along the guarded paths *)

Lemma sub_edges_refl h : sub_edges h h.
Proof. by intros x y. Qed.

Lemma sub_edges_trans h1 h2 h3 :
  sub_edges h1 h2 → sub_edges h2 h3 → sub_edges h1 h3.
Proof. intros H12 H23 x y Hx. by apply H23, H12. Qed.

Lemma sub_edges_delete p h : sub_edges (delete p h) h.
Proof.
  intros x y. unfold parent_field.
  destruct (decide (p = x)) as [->|Hne].
  - by rewrite lookup_delete_eq.
  - by rewrite lookup_delete_ne.
Qed.

Lemma sub_edges_clear p h :
  sub_edges (alter (λ o : object V, Object None (body o)) p h) h.
Proof.
  intros x y. unfold parent_field.
  destruct (decide (p = x)) as [->|Hne].
  - rewrite lookup_alter_eq. by destruct (h !! x).
  - by rewrite lookup_alter_ne.
Qed.

Lemma ancestor_sub_edges n h' h start c :
  sub_edges h' h → ancestor n h' start = Some c → ancestor n h start = Some c.
Proof.
  intros Hsub. revert start. induction n as [|n IH]; intros start Hn; [done |].
  destruct start as [s|]; [| by rewrite ancestor_None in Hn]. simpl in *.
  destruct (parent_field h' s) as [y|] eqn:Hy;
    [| by rewrite ancestor_None in Hn].
  rewrite (Hsub _ _ Hy). by apply IH.
Qed.

Lemma in_walk_sub_edges h' h start c :
  sub_edges h' h → in_walk h' start c → in_walk h start c.
Proof. intros Hsub [n Hn]. exists n. by eapply ancestor_sub_edges. Qed.

Lemma acyclic_sub_edges h' h : acyclic h → sub_edges h' h → acyclic h'.
Proof.
  intros Hac Hsub v Hv. apply (Hac v). unfold in_own_chain in *.
  destruct (parent_field h' v) as [y|] eqn:Hy;
    [| by apply not_in_walk_None in Hv].
  rewrite (Hsub _ _ Hy). by eapply in_walk_sub_edges.
Qed.

Lemma ancestor_add n m h cur :
  ancestor (n + m) h cur = ancestor m h (ancestor n h cur).
Proof.
  revert cur. induction n as [|n IH]; intros cur; [done |]. simpl. apply IH.
Qed.

Lemma parent_field_alter_ne (f : object V → object V) p h x :
  x ≠ p → parent_field (alter f p h) x = parent_field h x.
Proof. intros Hne. unfold parent_field. by rewrite lookup_alter_ne. Qed.

Lemma in_walk_alter (f : object V → object V) p h start :
  in_walk (alter f p h) start p → in_walk h start p.
Proof.
  intros [n Hn]. revert start Hn. induction n as [|n IH]; intros start Hn.
  - by exists 0.
  - destruct start as [s|]; [| by rewrite ancestor_None in Hn].
    destruct (decide (s = p)) as [->|Hne]; [apply in_walk_start |].
    simpl in Hn. rewrite parent_field_alter_ne in Hn by done.
    by apply in_walk_step, IH.
Qed.

Lemma ancestor_alter_or (f : object V → object V) p h n start c :
  ancestor n (alter f p h) start = Some c →
  in_walk (alter f p h) start p ∨ ancestor n h start = Some c.
Proof.
  revert start. induction n as [|n IH]; intros start Hn; [by right |].
  destruct start as [s|]; [| by rewrite ancestor_None in Hn].
  destruct (decide (s = p)) as [->|Hne]; [left; apply in_walk_start |].
  simpl in *. rewrite parent_field_alter_ne in Hn by done.
  destruct (IH _ Hn) as [Hin | Hk]; [left | by right].
  apply in_walk_step. by rewrite parent_field_alter_ne.
Qed.

(** Giving [p] the back-reference [P] keeps the chains acyclic when [p] is not
    on the walk from [P]. *)
Lemma acyclic_adopt h p (P : option ptr) :
  acyclic h → ¬ in_walk h P p →
  acyclic (alter (λ o : object V, Object P (body o)) p h).
Proof.
  intros Hac Hnot v [n Hn].
  change (ancestor (S n) (alter (λ o : object V, Object P (body o)) p h)
            (Some v) = Some v) in Hn.
  destruct (ancestor_alter_or _ _ _ _ _ _ Hn) as [[j Hj] | Hh].
  - apply Hnot, (in_walk_alter (λ o : object V, Object P (body o))).
    exists n.
    remember (alter (λ o : object V, Object P (body o)) p h) as h3 eqn:Hh3.
    assert (ancestor (S n) h3 (Some p) = Some p) as Hp.
    { transitivity (ancestor (S n) h3 (ancestor j h3 (Some v)));
        [by rewrite Hj |].
      rewrite <- (ancestor_add j (S n)), (Nat.add_comm j (S n)).
      rewrite (ancestor_add (S n) j), Hn. exact Hj. }
    simpl in Hp. unfold parent_field at 1 in Hp.
    rewrite Hh3 in Hp at 2. rewrite lookup_alter_eq in Hp.
    destruct (h !! p); simpl in Hp; [done |].
    by rewrite ancestor_None in Hp.
  - by apply (Hac v); exists n.
Qed.

Lemma sub_edges_clear_parent this σ :
  sub_edges (objects (clear_parent_on_child this σ)) (objects σ).
Proof.
  unfold clear_parent_on_child.
  destruct (ptr_ (slot_at σ this)), is_backtraceable;
    simpl; auto using sub_edges_refl, sub_edges_clear.
Qed.

Lemma sub_edges_destroy_owned this σ :
  deleter_only_removes →
  sub_edges (objects (destroy_owned this σ)) (objects σ).
Proof.
  intros Hdel. unfold destroy_owned.
  destruct (ptr_ (slot_at σ this)); [| apply sub_edges_refl]. simpl.
  eapply sub_edges_trans; [apply Hdel | apply sub_edges_clear_parent].
Qed.

(** With a deleter that adds no back-reference, [reset] keeps the
    back-reference chains acyclic. *)
Lemma reset_preserves_acyclic fuel this p σ σ' :
  is_parent = true → deleter_only_removes →
  acyclic (objects σ) → reset fuel this p σ = Some σ' → acyclic (objects σ').
Proof.
  intros Hpar Hdel Hac Hr. unfold reset in Hr.
  apply bind_Some in Hr as ([|] & Hw & Hr); [by injection Hr as <- |].
  injection Hr as <-. rewrite slot_at_destroy_owned.
  pose proof (sub_edges_destroy_owned this σ Hdel) as Hsub.
  unfold set_parent_on_child. rewrite slot_at_write_eq. simpl.
  destruct p as [c|]; [| by eapply acyclic_sub_edges].
  destruct is_backtraceable eqn:Hbt; [| by eapply acyclic_sub_edges].
  simpl. apply acyclic_adopt; [by eapply acyclic_sub_edges |].
  intros Hin%(in_walk_sub_edges _ _ _ _ Hsub).
  destruct (parent_ (slot_at σ this)) as [P|];
    [| by apply not_in_walk_None in Hin].
  rewrite would_create_cycle_walk in Hw by done.
  by apply walk_false_not_in in Hw.
Qed.

(** So does move-assignment, which adopts through [reset]. *)
Lemma move_assign_preserves_acyclic fuel this other σ σ' :
  is_parent = true → deleter_only_removes →
  acyclic (objects σ) → move_assign fuel this other σ = Some σ' →
  acyclic (objects σ').
Proof.
  intros Hpar Hdel Hac Hm. unfold move_assign in Hm.
  case_decide; [by injection Hm as <- |]. rewrite release_eq in Hm.
  apply bind_Some in Hm as (σ2 & Hr & Hm).
  case_decide; [done |]. injection Hm as <-. simpl.
  eapply reset_preserves_acyclic; [done .. | | exact Hr].
  simpl. eapply acyclic_sub_edges; [done | apply sub_edges_clear_parent].
Qed.

(** And the adopting constructor and the assignment from a foreign
    [std::unique_ptr]. *)
Lemma construct_adopt_preserves_acyclic fuel this P p σ σ' :
  is_parent = true → deleter_only_removes →
  acyclic (objects σ) → construct_adopt fuel this P p σ = Some σ' →
  acyclic (objects σ').
Proof. intros ? ? ?. by apply reset_preserves_acyclic. Qed.

Lemma emplace_preserves_acyclic fuel this new_T σ σ' :
  is_parent = true → deleter_only_removes →
  acyclic (objects (new_T σ).2) → emplace fuel this new_T σ = Some σ' →
  acyclic (objects σ').
Proof.
  intros Hpar Hdel Hac. unfold emplace. destruct (new_T σ) as [p σ1].
  by apply reset_preserves_acyclic.
Qed.

Lemma assign_unique_preserves_acyclic fuel this up σ r σ' :
  is_parent = true → deleter_only_removes →
  acyclic (objects σ) → assign_unique fuel this up σ = Some (r, σ') →
  acyclic (objects σ').
Proof.
  intros Hpar Hdel Hac Ha. unfold assign_unique in Ha.
  apply bind_Some in Ha as (σ2 & Hr & [= _ <-]).
  by eapply reset_preserves_acyclic.
Qed.

End Properties.

(** ** The scenarios of the tests *)

Section Scenarios.
Import NodeTest.

Lemma with_child_fuel fuel : 1 ≤ fuel → with_child fuel = Some child_state.
Proof. intros Hle. eapply emplace_mono; [| exact Hle]. by vm_compute. Qed.

(** C1: a slot with a recorded parent [P] is asked to adopt a value [p] that
    is on the walk from [P] along the back-references, so that the adoption
    would close a cycle.  [reset] returns normally and the state it leaves
    is the state it found: the slot, the value it owned and every object
    are as before.  In the scenario of the tests, with the root at
    address 1 owning the child at address 2 through [root.left],
    [root.left->left.reset(&root)] leaves [root.left->left] empty while
    [root.left] still owns the child, whose back-reference is the root. *)
Theorem reset_cycle_refusal :
  (∀ {tag : Type} {denote : tag → Type} {V D : Type}
     `{!Traits} `{!Deleter (denote := denote) V D}
     (σ : state (denote := denote) V D) (this : sid) (P p : ptr) (n : nat),
      is_backtraceable = true → is_parent = true →
      parent_ (slot_at σ this) = Some P →
      ancestor n (objects σ) (Some P) = Some p →
      ∀ fuel, n ≤ fuel → reset fuel this (Some p) σ = Some σ) ∧
  (∀ fuel, 1 ≤ fuel →
      with_child fuel = Some child_state ∧
      ∃ σ', adopt_root fuel = Some σ' ∧
            σ' = child_state ∧
            to_bool 3 σ' = false ∧
            get 1 σ' = Some 2%positive ∧
            parent_field (objects σ') 2 = Some 1%positive).
Proof.
  split.
  - intros. by eapply reset_refuses_on_walk.
  - intros fuel Hle. split; [by apply with_child_fuel |].
    exists child_state.
    unfold adopt_root. rewrite with_child_fuel by done. simpl.
    split; [| by vm_compute].
    eapply reset_mono; [| exact Hle]. by vm_compute.
Qed.

(** C1 at the scenario: [root.left->left.reset(&root)] with fuel 1. *)
Lemma reset_cycle_refusal_witness :
  reset 1 3 (Some 1%positive) child_state = Some child_state.
Proof.
  apply (proj1 reset_cycle_refusal _ _ _ _ _ _ child_state 3%positive
           2%positive 1%positive 1); [reflexivity .. | lia].
Defined.

(** *** A cycle made by swap *)

Lemma held_root_fuel fuel : 1 ≤ fuel → held_root fuel = Some held_state.
Proof.
  intros Hle. unfold held_root, make_child_unique_ptr_orphan.
  rewrite (emplace_mono 1 fuel _ _ _
             (default empty_state
                (emplace 1 5 (Node_new 1 1 2 1) (construct_default 5 empty_state))))
    by (done || by vm_compute).
  simpl. eapply emplace_mono; [| exact Hle]. by vm_compute.
Qed.

Lemma held_objects :
  objects held_state =
  <[2%positive := Object (Some 1%positive) (MkNode 2 3 4)]>
    (<[1%positive := Object None (MkNode 1 1 2)]> ∅).
Proof. by vm_compute. Qed.

Lemma held_acyclic : acyclic (objects held_state).
Proof.
  intros v Hv. unfold in_own_chain in Hv. rewrite held_objects in Hv.
  unfold parent_field at 1 in Hv.
  destruct (decide (v = 2%positive)) as [->|H2].
  - rewrite lookup_insert_eq in Hv. simpl in Hv.
    apply in_walk_inv in Hv as [? | Hv]; [done |].
    unfold parent_field in Hv.
    rewrite lookup_insert_ne, lookup_insert_eq in Hv by done.
    by apply not_in_walk_None in Hv.
  - rewrite lookup_insert_ne in Hv by done.
    destruct (decide (v = 1%positive)) as [->|H1].
    + rewrite lookup_insert_eq in Hv. by apply not_in_walk_None in Hv.
    + rewrite lookup_insert_ne, lookup_empty in Hv by done.
      by apply not_in_walk_None in Hv.
Qed.

(** C2, at the input where the code departs from it: the root (address 1)
    is owned by [holder] (slot 5) and owns the child (address 2), whose
    slot [left] (slot 3) is empty; every back-reference chain is acyclic.
    [holder->left->left.swap(holder)] returns a state in which the
    back-reference of the root is the child and that of the child is the
    root, so the chain of the root contains the root. *)
Theorem swap_creates_cycle :
  (∀ fuel, 1 ≤ fuel →
     held_root fuel = Some held_state ∧
     swapped fuel = Some (swap 3 5 held_state)) ∧
  acyclic (objects held_state) ∧
  get 5 held_state = Some 1%positive ∧
  get 3 held_state = None ∧
  get 3 (swap 3 5 held_state) = Some 1%positive ∧
  parent_field (objects (swap 3 5 held_state)) 1 = Some 2%positive ∧
  parent_field (objects (swap 3 5 held_state)) 2 = Some 1%positive ∧
  in_own_chain (objects (swap 3 5 held_state)) 1 ∧
  ¬ acyclic (objects (swap 3 5 held_state)).
Proof.
  assert (in_own_chain (objects (swap 3 5 held_state)) 1) as Hin.
  { exists 1. by vm_compute. }
  split; [| repeat split; try by vm_compute].
  - intros fuel Hle. unfold swapped. by rewrite held_root_fuel.
  - apply held_acyclic.
  - intros Hac. by apply (Hac 1%positive).
Qed.

(** *** The guarded paths keep the chains acyclic *)

Lemma delete_node_sub_edges depth sl p h :
  sub_edges (delete_node depth sl p h) h.
Proof.
  revert p h. induction depth as [|d IH]; intros p h; [apply sub_edges_refl |].
  simpl. destruct (h !! p) as [o|]; [| apply sub_edges_refl].
  assert (∀ i g, sub_edges
            match sl !! i ≫= ptr_ with
            | Some c => delete_node d sl c (alter (λ x, Object None (body x)) c g)
            | None => g
            end g) as Hdrop.
  { intros i g. destruct (sl !! i ≫= ptr_) as [c|]; [| apply sub_edges_refl].
    eapply sub_edges_trans; [apply IH | apply sub_edges_clear]. }
  eapply sub_edges_trans; [apply sub_edges_delete |].
  eapply sub_edges_trans; apply Hdrop.
Qed.

Lemma default_delete_only_removes : deleter_only_removes.
Proof. intros d q σ. apply delete_node_sub_edges. Qed.

(** *** The cycle guard on a cycle *)

Lemma swapped_walk n :
  ancestor n (objects swapped_state) (Some 1%positive) = Some 1%positive ∨
  ancestor n (objects swapped_state) (Some 1%positive) = Some 2%positive.
Proof.
  induction n as [|n IH]; [by left |].
  rewrite ancestor_last. destruct IH as [-> | ->]; [right | left];
    by vm_compute.
Qed.

(** Against C3 as stated: on the store left by the swap above, where the
    back-references of the root and of the child point at each other, the
    walk from the root looking for a third node gives no answer, whatever
    the fuel. *)
Lemma cycle_guard_no_answer :
  ¬ ∃ fuel b,
      would_create_cycle fuel (objects swapped_state)
        (Some 3%positive) (Some 1%positive) = Some b.
Proof.
  intros (fuel & b & Hw).
  rewrite would_create_cycle_walk, walk_diverges in Hw; [done | | done ..].
  intros [n Hn]. by destruct (swapped_walk n) as [H | H], Hn; simplify_eq.
Qed.

(** C3 at the scenario: the walk from the child looking for the root. *)
Lemma cycle_guard_walk_witness :
  would_create_cycle 1 (objects child_state)
    (Some 1%positive) (Some 2%positive) = Some true.
Proof.
  destruct (cycle_guard_walk (objects child_state) (Some 2%positive)
              1%positive) as [H1 _]; [reflexivity | reflexivity |].
  apply (H1 1); [reflexivity | lia].
Defined.

(** *** Moves *)

(** Against C4 as stated: [holder] (slot 5) owns the root (address 1);
    after [holder->left->left = std::move(holder)] the destination
    (slot 3) does not own the root, and [holder] is empty. *)
Lemma move_assign_refused :
  held_root 1 = Some held_state ∧
  get 5 held_state = Some 1%positive ∧
  ∃ σ', moved 1 = Some σ' ∧
        move_assign 1 3 5 held_state = Some σ' ∧
        get 5 σ' = None ∧
        get 3 σ' = None ∧
        is_Some (objects σ' !! 1%positive).
Proof.
  do 2 (split; [by vm_compute |]). eexists.
  split; [by vm_compute |]. do 3 (split; [by vm_compute |]).
  vm_compute. by eexists.
Qed.

(** [root.left = std::move(root.left->left)]: the source of the move is
    the member [left] (slot 3) of the child (address 2), and it owns the
    grandchild (address 3).  The reset of [root.left] returns and deletes the
    child, so slot 3 is destroyed before the three moves read it: the
    assignment has no result, whatever the fuel. *)
Lemma move_assign_source_destroyed :
  get 3 grandchild_state = Some 3%positive ∧
  (∃ σ2, reset 1 1 (Some 3%positive) (release 3 grandchild_state).2 = Some σ2 ∧
         objects σ2 !! 2%positive = None ∧
         destroyed_slot (objects (release 3 grandchild_state).2)
           (objects σ2) 3) ∧
  ∀ fuel, move_assign fuel 1 3 grandchild_state = None.
Proof.
  split; [by vm_compute |]. split.
  { eexists. split; [by vm_compute |]. split; [by vm_compute |].
    apply (bool_decide_unpack _). by vm_compute. }
  intros [|fuel]; [by vm_compute |].
  unfold move_assign. rewrite decide_False by done.
  destruct (release 3 grandchild_state) as [p σ1] eqn:Hrel.
  assert (p = Some 3%positive ∧
          σ1 = (release 3 grandchild_state).2) as [-> Hσ1]
    by (rewrite Hrel; split; [by vm_compute in Hrel; simplify_eq | done]).
  rewrite (reset_mono 1 (S fuel) 1 (Some 3%positive) σ1
             (default σ1 (reset 1 1 (Some 3%positive) σ1)));
    [| subst σ1; by vm_compute | lia].
  simpl. subst σ1. rewrite decide_True; [done |].
  right. apply (bool_decide_unpack _). by vm_compute.
Qed.

(** C4 at the root with both children and ["hp"] set on [root.right]:
    [child_ptr fresh(std::move(root.right))] with [fresh] at slot 9, and
    [root.left = std::move(root.right)], which destroys the left child
    (address 2), whose members are the slots 3 and 4. *)
Lemma move_transfers_witness :
  field_exists 2 "hp" right_hp_state = (Ok true, right_hp_state) ∧
  (get 2 (move_construct 9 2 right_hp_state) = None ∧
   get 9 (move_construct 9 2 right_hp_state) = Some 3%positive ∧
   dyn_fields_ (slot_at (move_construct 9 2 right_hp_state) 9)
     = dyn_fields_ (slot_at right_hp_state 2)) ∧
  ∃ σ', move_assign 1 1 2 right_hp_state = Some σ' ∧
        get 2 σ' = None ∧
        get 1 σ' = Some 3%positive ∧
        parent <$> objects σ' !! 3%positive = Some (Some 1%positive) ∧
        dyn_fields_ (slot_at σ' 1) = dyn_fields_ (slot_at right_hp_state 2) ∧
        dyn_fields_ (slot_at σ' 2) = None.
Proof.
  split; [by vm_compute |].
  destruct (move_transfers right_hp_state 9 2 3
              (Object (Some 1%positive) (MkNode 3 5 6)))
    as [(HA1 & HA2 & _ & _ & _ & HA3 & _) _];
    [lia | reflexivity | reflexivity |].
  split; [split; [exact HA1 | split; [exact HA2 | exact HA3]] |].
  destruct (move_transfers right_hp_state 1 2 3
              (Object (Some 1%positive) (MkNode 3 5 6)))
    as [_ HB]; [lia | reflexivity | reflexivity |].
  destruct (HB 1) with (fuel := 1)
    as (σ' & H1 & H2 & H3 & H4 & _ & H5 & _ & H6 & _ & H7 & _);
    [ intros _ _; split;
        [reflexivity | apply (walk_false_not_in 1); by vm_compute]
    | by vm_compute; eexists
    | apply (bool_decide_unpack _); by vm_compute
    | apply (bool_decide_unpack _); by vm_compute
    | lia |].
  exists σ'. split; [exact H1 |]. split; [exact H2 |]. split; [exact H3 |].
  split; [| split; [exact H6 | exact H7]].
  rewrite (H5 eq_refl). by rewrite H4.
Defined.

(** *** release, swap, reset *)

(** C5 at [root.left.release()], with [Node] as in the tests and with the
    [Node] that is not [Backtraceable]. *)
Lemma release_detaches_witness :
  (∃ σ', release 1 child_state = (Some 2%positive, σ') ∧
         objects σ' !! 2%positive = Some (Object None (MkNode 2 3 4)) ∧
         get 1 σ' = None) ∧
  (∃ σ', release (H := PlainTest.Plain_traits) 1 PlainTest.plain_child_state
           = (Some 2%positive, σ') ∧
         objects σ' !! 2%positive = Some (Object None (MkNode 2 3 4)) ∧
         get 1 σ' = None).
Proof.
  split.
  - destruct (release_detaches child_state 1 2
                (Object (Some 1%positive) (MkNode 2 3 4)))
      as (σ' & H1 & H2 & _ & H3 & _); [reflexivity .. |].
    exists σ'. split; [exact H1 |]. split; [exact H2 | exact H3].
  - destruct (release_detaches (H := PlainTest.Plain_traits)
                PlainTest.plain_child_state 1 2 (Object None (MkNode 2 3 4)))
      as (σ' & H1 & H2 & _ & H3 & _); [reflexivity .. |].
    exists σ'. split; [exact H1 |]. split; [exact H2 | exact H3].
Defined.

(** C6 at [root.left.swap(root.right)] with children 2 and 3. *)
Lemma swap_exchanges_witness :
  get 1 (swap 1 2 two_children) = Some 3%positive ∧
  get 2 (swap 1 2 two_children) = Some 2%positive ∧
  parent <$> objects (swap 1 2 two_children) !! 3%positive
    = Some (Some 1%positive).
Proof.
  destruct (swap_exchanges two_children 1 2) as [(H1 & H2 & _) HB].
  split; [exact H1 |]. split; [exact H2 |].
  apply (HB eq_refl) with (i := 1%positive);
    [by vm_compute | by left | reflexivity | by vm_compute; eexists].
Defined.

(** C7 at [root.left.reset(new Node(10))] after [root.left["hp"] = 100]. *)
Lemma reset_keeps_dynamic_stores_witness :
  ∃ σ', reset 1 1 (Some 3%positive) replacement_state = Some σ' ∧
        dyn_fields_ (slot_at σ' 1) = dyn_fields_ (slot_at hp_state 1) ∧
        get 1 σ' = Some 3%positive.
Proof.
  destruct (reset_keeps_dynamic_stores replacement_state 1
              (Some 3%positive) 1) with (fuel := 1)
    as (σ' & H1 & H2 & H3); [by left | lia |].
  exists σ'. split; [exact H1 |]. split; [apply (H2 1%positive) |].
  apply H3. intros c [= <-]. apply (walk_false_not_in 1). by vm_compute.
Defined.

(** *** The dynamic stores *)

(** C8 at [def<int, int, int>("add", +)] and [call<int>("add", 10, 20)]. *)
Lemma def_call_round_trip_witness :
  ∃ σ1, def (Some TInt) [TInt; TInt] 1 "add" Z.add child_state = (Ok (), σ1) ∧
        call (Some TInt) 1 "add" [existT TInt 10%Z; existT TInt 20%Z] σ1
          = (Ok 30%Z, σ1).
Proof.
  destruct (def_call_round_trip child_state 1 "add" TInt TInt (Some TInt)
              Z.add 10%Z 20%Z) as (σ1 & H1 & _ & H2 & _); [by vm_compute |].
  exists σ1. split; [exact H1 | exact H2].
Defined.

(** Against C9 as stated: [root.left] owns a value and ["hp"] has been
    set; before the next [set("hp", V)], [exists("hp")] is true. *)
Lemma exists_true_before_set :
  ptr_ (slot_at hp_state 1) ≠ None ∧
  field_exists 1 "hp" hp_state = (Ok true, hp_state).
Proof. split; by vm_compute. Qed.

(** C9 at [root.left["hp"] = 100] on a slot never written. *)
Lemma attribute_round_trip_witness :
  field_exists 1 "hp" child_state = (Ok false, child_state) ∧
  ∃ σ', set_field (t := TInt) 1 "hp" 100%Z child_state = (Ok (), σ') ∧
        field_exists 1 "hp" σ' = (Ok true, σ') ∧
        get_field TInt 1 "hp" σ' = (Ok 100%Z, σ').
Proof.
  destruct (attribute_round_trip child_state 1 "hp" TInt 100%Z)
    as [Hiff (σ' & H1 & _ & H2 & H3)]; [by vm_compute |].
  split; [by apply Hiff |].
  exists σ'. split; [exact H1 |]. split; [exact H2 | exact H3].
Defined.

(** *** equals *)

(** C10 at the two empty slots of a fresh root. *)
Lemma equals_on_empty_witness : equals 1 2 root_state = Some true.
Proof.
  apply (proj1 (equals_on_empty root_state 1 2)); reflexivity.
Defined.

End Scenarios.

(** ** Further properties of the ownership operations *)

Section Ownership.
Context {tag : Type} `{EqDecision tag} {denote : tag → Type} {V D : Type}.
Context `{!Traits} `{!Deleter (denote := denote) V D} `{!Members V}.

Implicit Types (h : gmap ptr (object V)) (σ : state (denote := denote) V D).
Implicit Types (this other : sid).

Lemma guard_refuses_not h (c : ptr) start n fuel :
  ancestor n h start = None → ¬ in_walk h start c → n ≤ fuel →
  would_create_cycle fuel h (Some c) start = Some false.
Proof.
  intros Hend Hnot Hle.
  destruct (guard_answers n fuel h (Some c) start) as [[|] Hb];
    [by left | done | | done].
  apply guard_true_in_walk in Hb as (c' & [= <-] & Hin). by destruct Hnot.
Qed.




(** Any program of guarded operations keeps the chains acyclic. *)
Lemma run_op_acyclic fuel (op : guarded_op) σ σ' :
  is_parent = true → deleter_only_removes →
  acyclic (objects σ) → run_op fuel op σ = Some σ' → acyclic (objects σ').
Proof.
  intros Hpar Hdel Hac Hr. destruct op; simpl in Hr.
  - by injection Hr as <-.
  - by eapply construct_adopt_preserves_acyclic.
  - by eapply reset_preserves_acyclic.
  - injection Hr as <-. unfold release. simpl.
    eapply acyclic_sub_edges; [done | apply sub_edges_clear_parent].
  - apply fmap_Some in Hr as ([r σ2] & Ha & ->).
    by eapply assign_unique_preserves_acyclic.
  - by eapply move_assign_preserves_acyclic.
  - unfold destroy in Hr. apply bind_Some in Hr as (σ2 & Hr & [= <-]). simpl.
    by eapply reset_preserves_acyclic.
Qed.

(** X3: with [T] a [Parent] and a deleter that adds no back-reference, a
    client program made of constructions, adopting constructions, resets,
    releases, assignments from [std::unique_ptr], move-assignments and
    destructions, in any number and order, takes a state with acyclic
    back-reference chains to a state with acyclic back-reference chains. *)
Theorem guarded_program_keeps_acyclic fuel (ops : list guarded_op) σ σ' :
  is_parent = true → deleter_only_removes →
  acyclic (objects σ) → run_ops fuel ops σ = Some σ' → acyclic (objects σ').
Proof.
  intros Hpar Hdel. revert σ. induction ops as [|op ops IH]; intros σ Hac Hr.
  - by injection Hr as <-.
  - simpl in Hr. apply bind_Some in Hr as (σ1 & H1 & Hr).
    eapply IH; [| exact Hr]. by eapply run_op_acyclic.
Qed.

Lemma setp_eta (o : object V) : Object (parent o) (body o) = o.
Proof. by destruct o. Qed.

Lemma slot_eta (s : slot (denote := denote) D) :
  Slot (parent_ s) (ptr_ s) (deleter_ s) (dyn_fields_ s) (dyn_fns_ s) = s.
Proof. by destruct s. Qed.

Lemma ancestor_alter_upto (f : object V → object V) p h n start :
  ancestor n h start = Some p →
  ∃ m, m ≤ n ∧ ancestor m (alter f p h) start = Some p.
Proof.
  revert start. induction n as [|n IH]; intros start Hn.
  - exists 0. by split.
  - destruct start as [s|]; [| by rewrite ancestor_None in Hn].
    destruct (decide (s = p)) as [->|Hne]; [exists 0; split; [lia | done] |].
    simpl in Hn. destruct (IH _ Hn) as (m & Hle & Hm).
    exists (S m). split; [lia |]. simpl.
    by rewrite parent_field_alter_ne.
Qed.

Lemma clear_parent_walks this σ start c :
  ptr_ (slot_at σ this) = Some c →
  (∀ k, ancestor k (objects σ) start ≠ Some c) →
  ∀ k, ancestor k (objects (clear_parent_on_child this σ)) start
       = ancestor k (objects σ) start.
Proof.
  intros Hp Hoff k. unfold clear_parent_on_child. rewrite Hp.
  destruct is_backtraceable; [| done]. simpl.
  by apply ancestor_alter_off_walk.
Qed.

(** X4: a slot owns a live value whose back-reference is the recorded parent
    of the slot, and the walk from that parent ends without meeting the
    value.  Releasing the value and resetting the slot to the released
    pointer puts back every object and every slot as they were. *)
Theorem release_then_reset_restores σ this (p : ptr) (o : object V) n :
  ptr_ (slot_at σ this) = Some p →
  objects σ !! p = Some o →
  parent o = parent_ (slot_at σ this) →
  ancestor n (objects σ) (parent_ (slot_at σ this)) = None →
  ¬ in_walk (objects σ) (parent_ (slot_at σ this)) p →
  ∀ fuel, n ≤ fuel →
  ∃ σ1 σ2, release this σ = (Some p, σ1) ∧
           ptr_ (slot_at σ1 this) = None ∧
           reset fuel this (Some p) σ1 = Some σ2 ∧
           objects σ2 = objects σ ∧
           ∀ i, slot_at σ2 i = slot_at σ i.
Proof.
  intros Hp Ho Hcoh Hend Hnot fuel Hle.
  rewrite release_eq, Hp.
  set (σ1 := write_slot this (set_ptr None (slot_at σ this))
               (clear_parent_on_child this σ)).
  assert (slot_at σ1 this = set_ptr None (slot_at σ this)) as Hs1
    by apply slot_at_write_eq.
  assert (∀ k, ancestor k (objects σ1) (parent_ (slot_at σ this))
               = ancestor k (objects σ) (parent_ (slot_at σ this))) as Hsame.
  { apply (clear_parent_walks this σ _ p); [done |].
    intros k Hk. apply Hnot. by exists k. }
  exists σ1. eexists. split; [done |]. split; [by rewrite Hs1 |]. split.
  { apply reset_accepts. rewrite Hs1. simpl.
    destruct (parent_ (slot_at σ this)) as [P|] eqn:HP; [| done].
    eapply guard_refuses_not; [by rewrite Hsame | | done].
    intros [k Hk]. apply Hnot. exists k. by rewrite <- Hsame. }
  assert (destroy_owned this σ1 = σ1) as ->.
  { unfold destroy_owned. by rewrite Hs1. }
  rewrite Hs1. split.
  - unfold set_parent_on_child. rewrite slot_at_write_eq. simpl.
    unfold σ1, clear_parent_on_child. rewrite Hp.
    destruct is_backtraceable; [| done]. simpl.
    apply map_eq. intros q. rewrite !lookup_alter. case_decide; [| done].
    subst q. rewrite Ho, decide_True by done. simpl.
    by rewrite <- Hcoh, setp_eta.
  - intros i. rewrite slot_at_set_parent.
    destruct (decide (this = i)) as [<-|Hne].
    + rewrite slot_at_write_eq. unfold set_ptr. simpl.
      by rewrite <- Hp, slot_eta.
    + rewrite slot_at_write_ne by done. unfold σ1.
      rewrite slot_at_write_ne by done. apply slot_at_clear_parent.
Qed.

Lemma lookup_set_parent i σ q :
  objects (set_parent_on_child i σ) !! q =
  if bool_decide (is_backtraceable = true ∧ ptr_ (slot_at σ i) = Some q)
  then (λ o, Object (parent_ (slot_at σ i)) (body o)) <$> objects σ !! q
  else objects σ !! q.
Proof.
  unfold set_parent_on_child. case_bool_decide as Hc.
  - destruct Hc as [-> ->]. unfold store_parent. cbn [objects].
    by rewrite lookup_alter_eq.
  - destruct (ptr_ (slot_at σ i)) as [p|] eqn:Hp; [| done].
    destruct is_backtraceable eqn:Hbt; [| done].
    unfold store_parent. cbn [objects]. rewrite lookup_alter_ne; [done |].
    intros ->. by apply Hc.
Qed.

Lemma swap_slots σ this other :
  slot_at (swap this other σ) this =
    Slot (parent_ (slot_at σ this)) (ptr_ (slot_at σ other))
         (deleter_ (slot_at σ other)) (dyn_fields_ (slot_at σ other))
         (dyn_fns_ (slot_at σ other)) ∧
  slot_at (swap this other σ) other =
    Slot (parent_ (slot_at σ other)) (ptr_ (slot_at σ this))
         (deleter_ (slot_at σ this)) (dyn_fields_ (slot_at σ this))
         (dyn_fns_ (slot_at σ this)) ∧
  ∀ j, j ≠ this → j ≠ other → slot_at (swap this other σ) j = slot_at σ j.
Proof.
  unfold swap. rewrite !slot_at_set_parent. split; [| split].
  - destruct (decide (this = other)) as [->|Hne].
    + by rewrite slot_at_write_eq.
    + rewrite slot_at_write_ne by done. apply slot_at_write_eq.
  - apply slot_at_write_eq.
  - intros j H1 H2. rewrite !slot_at_set_parent.
    by rewrite !slot_at_write_ne by done.
Qed.

Lemma swap_objects σ this other q :
  objects (swap this other σ) !! q =
  (if bool_decide (is_backtraceable = true ∧ ptr_ (slot_at σ this) = Some q)
   then fmap (λ o, Object (parent_ (slot_at σ other)) (body o)) else id)
    ((if bool_decide (is_backtraceable = true ∧ ptr_ (slot_at σ other) = Some q)
      then fmap (λ o, Object (parent_ (slot_at σ this)) (body o)) else id)
       (objects σ !! q)).
Proof.
  destruct (swap_slots σ this other) as (Hthis & Hother & _).
  unfold swap in *. rewrite !slot_at_set_parent in Hthis, Hother.
  rewrite lookup_set_parent, slot_at_set_parent, Hother. simpl.
  rewrite lookup_set_parent, Hthis. simpl.
  by repeat case_bool_decide.
Qed.

(** X5: when each of two slots is coherent (the live value it owns has the
    recorded parent of the slot as its back-reference), swapping them twice
    puts back every object and every slot as they were. *)
Theorem swap_twice_restores σ this other :
  coherent_at σ this → coherent_at σ other →
  objects (swap this other (swap this other σ)) = objects σ ∧
  ∀ i, slot_at (swap this other (swap this other σ)) i = slot_at σ i.
Proof.
  intros Ha Hb.
  destruct (swap_slots σ this other) as (H1t & H1o & H1j).
  destruct (swap_slots (swap this other σ) this other) as (H2t & H2o & H2j).
  split.
  - apply map_eq. intros q. rewrite swap_objects, swap_objects.
    rewrite H1t, H1o. simpl.
    destruct (objects σ !! q) as [o|] eqn:Ho;
      [| by repeat case_bool_decide].
    repeat case_bool_decide; simpl; try done;
      repeat match goal with H : _ ∧ _ |- _ => destruct H end;
      f_equal;
      first [ by rewrite <- (Hb q o), setp_eta by done
            | by rewrite <- (Ha q o), setp_eta by done ].
  - intros i. destruct (decide (i = this)) as [->|Ht].
    + rewrite H2t, H1t, H1o. simpl. apply slot_eta.
    + destruct (decide (i = other)) as [->|Ho].
      * rewrite H2o, H1t, H1o. simpl. apply slot_eta.
      * by rewrite H2j, H1j.
Qed.

Lemma release_state σ this :
  (release this σ).2 =
  write_slot this (set_ptr None (slot_at σ this)) (clear_parent_on_child this σ).
Proof. by rewrite release_eq. Qed.

(** X6: a value that is on the walk from the recorded parent of a slot is
    offered to the slot by a foreign [std::unique_ptr].  The assignment
    returns, the state is the one it found, and the [unique_ptr] has given
    the value up all the same: the slot does not own it and the foreign
    owner holds nothing.  The adopting constructor on such a value leaves
    the new slot empty. *)
Theorem foreign_adoption_refused σ this (P p : ptr) n fuel :
  is_backtraceable = true → is_parent = true →
  ancestor n (objects σ) (Some P) = Some p → n ≤ fuel →
  (parent_ (slot_at σ this) = Some P →
   assign_unique fuel this (Some p) σ = Some (None, σ)) ∧
  ∃ σ', construct_adopt fuel this (Some P) (Some p) σ = Some σ' ∧
        σ' = construct this (Some P) σ ∧
        ptr_ (slot_at σ' this) = None ∧
        objects σ' = objects σ.
Proof.
  intros Hbt Hpar Hn Hle. split.
  - intros HP. unfold assign_unique.
    by rewrite (reset_refuses_on_walk σ this P p n fuel).
  - eexists. split; [| split; [done |]].
    + unfold construct_adopt.
      apply (reset_refuses_on_walk _ this P p n fuel); try done.
      unfold construct. by rewrite slot_at_write_eq.
    + unfold construct. by rewrite slot_at_write_eq.
Qed.

(** X7: the slot [other] owns [p], and [p] is on the walk from the recorded
    parent of a different slot [this].  The move-assignment
    [this = std::move(other)] returns; [this] owns what it owned before and
    keeps its recorded parent, but its deleter and dynamic stores are now
    those of [other]; [other] is empty and without dynamic stores; [p] has
    lost its back-reference; and when no other slot owned [p], no slot owns
    it afterwards. *)
Theorem move_assign_refusal σ this other (P p : ptr) (o : object V) n fuel :
  is_backtraceable = true → is_parent = true →
  this ≠ other →
  ptr_ (slot_at σ other) = Some p →
  objects σ !! p = Some o →
  parent_ (slot_at σ this) = Some P →
  ancestor n (objects σ) (Some P) = Some p → n ≤ fuel →
  ∃ σ', move_assign fuel this other σ = Some σ' ∧
        ptr_ (slot_at σ' this) = ptr_ (slot_at σ this) ∧
        parent_ (slot_at σ' this) = Some P ∧
        deleter_ (slot_at σ' this) = deleter_ (slot_at σ other) ∧
        dyn_fields_ (slot_at σ' this) = dyn_fields_ (slot_at σ other) ∧
        dyn_fns_ (slot_at σ' this) = dyn_fns_ (slot_at σ other) ∧
        ptr_ (slot_at σ' other) = None ∧
        dyn_fields_ (slot_at σ' other) = None ∧
        dyn_fns_ (slot_at σ' other) = None ∧
        objects σ' !! p = Some (Object None (body o)) ∧
        ((∀ j, j ≠ other → ptr_ (slot_at σ j) ≠ Some p) →
         ∀ j, ptr_ (slot_at σ' j) ≠ Some p).
Proof.
  intros Hbt Hpar Hne Hp Ho HP Hn Hle.
  unfold move_assign. rewrite decide_False by done.
  rewrite release_eq, Hp.
  set (σ1 := write_slot other (set_ptr None (slot_at σ other))
               (clear_parent_on_child other σ)).
  assert (slot_at σ1 this = slot_at σ this) as Hthis.
  { unfold σ1. rewrite slot_at_write_ne by done. apply slot_at_clear_parent. }
  assert (slot_at σ1 other = set_ptr None (slot_at σ other)) as Hother
    by apply slot_at_write_eq.
  assert (objects σ1 = alter (λ x, Object None (body x)) p (objects σ)) as Hobj.
  { unfold σ1. simpl. by apply objects_clear_parent. }
  destruct (ancestor_alter_upto (λ x, Object None (body x)) p _ _ _ Hn)
    as (m & Hm & Hwalk).
  rewrite (reset_refuses_on_walk σ1 this P p m fuel);
    [| done | done | by rewrite Hthis | by rewrite Hobj | lia].
  simpl. rewrite decide_False
    by (intros [Hd | Hd]; by apply destroyed_slot_same in Hd).
  eexists. split; [done |].
  rewrite slot_at_write_eq.
  rewrite !(slot_at_write_ne other this), !slot_at_write_eq, Hother, Hthis
    by done.
  simpl. rewrite HP.
  change (objects (clear_parent_on_child other σ)) with (objects σ1).
  rewrite Hobj, lookup_alter_eq, Ho. simpl.
  repeat split; try done.
  intros Huniq j.
  destruct (decide (j = other)) as [->|Hjo]; [by rewrite slot_at_write_eq |].
  rewrite slot_at_write_ne by done.
  destruct (decide (j = this)) as [->|Hjt].
  - rewrite slot_at_write_eq. simpl. by apply Huniq.
  - rewrite slot_at_write_ne by done.
    unfold σ1. rewrite slot_at_write_ne by done.
    rewrite slot_at_clear_parent. by apply Huniq.
Qed.

End Ownership.

(** ** Further properties of the dynamic stores *)

Section DynamicStores.
Context {tag : Type} `{EqDecision tag} {denote : tag → Type} {V D : Type}.
Context `{!Traits} `{!Deleter (denote := denote) V D}.

Implicit Types (σ : state (denote := denote) V D) (this : sid).

Lemma any_cast_other (t u : tag) (v : denote t) :
  t ≠ u → any_cast u (make_any v) = Throw bad_any_cast.
Proof.
  intros Hne. unfold any_cast, make_any. by destruct (decide (t = u)).
Qed.

Lemma field_ops_eq this K σ :
  ptr_ (slot_at σ this) ≠ None →
  field_exists this K σ =
    (Ok (bool_decide (is_Some (fields_or_null this σ ≫= (.!! K)))), σ) ∧
  ∀ u, get_field u this K σ =
    (match fields_or_null this σ with
     | None => Throw (runtime_error "field_proxy: no dynamic fields map")
     | Some m =>
         match m !! K with
         | None => Throw (runtime_error ("field_proxy: key not found: " +:+ K))
         | Some a => any_cast u a
         end
     end, σ).
Proof.
  intros Hp. unfold field_exists, get_field, mbind, index, proxy_exists, proxy_as.
  destruct (ptr_ (slot_at σ this)); [| done]. simpl. split.
  - destruct (fields_or_null this σ) as [m|]; [| done]. simpl.
    by destruct (m !! K).
  - intros u. destruct (fields_or_null this σ) as [m|]; [| done].
    by destruct (m !! K).
Qed.

Lemma set_field_fields (t : tag) this K (v : denote t) σ :
  ptr_ (slot_at σ this) ≠ None →
  ∃ σ', set_field this K v σ = (Ok (), σ') ∧
        slot_at σ' this =
          set_fields (Some (<[K := make_any v]>
                              (default ∅ (dyn_fields_ (slot_at σ this)))))
                     (slot_at σ this) ∧
        objects σ' = objects σ ∧
        ∀ j, j ≠ this → slot_at σ' j = slot_at σ j.
Proof.
  intros Hp. eexists. split; [by apply set_field_eq |].
  split; [apply slot_at_write_eq |]. split; [done |].
  intros j Hj. by apply slot_at_write_ne.
Qed.


(** X9: the faults of a read, on a slot that owns a value.  Before any
    attribute was written the read throws "no dynamic fields map"; once the
    store exists, a read of a key without entry throws "key not found";
    after [ptr[K] = v] a read of [K] at a type other than that of [v] throws
    [bad_any_cast].  In each case the state is left as it was. *)
Theorem get_field_faults σ this (K : string) (u : tag) :
  ptr_ (slot_at σ this) ≠ None →
  (fields_or_null this σ = None →
   get_field u this K σ =
     (Throw (runtime_error "field_proxy: no dynamic fields map"), σ)) ∧
  (∀ m, fields_or_null this σ = Some m → m !! K = None →
   get_field u this K σ =
     (Throw (runtime_error ("field_proxy: key not found: " +:+ K)), σ)) ∧
  (∀ t (v : denote t), t ≠ u →
   ∃ σ', set_field this K v σ = (Ok (), σ') ∧
         get_field u this K σ' = (Throw bad_any_cast, σ')).
Proof.
  intros Hp. split; [| split].
  - intros Hnone. rewrite (proj2 (field_ops_eq this K σ Hp)). by rewrite Hnone.
  - intros m Hm HK. rewrite (proj2 (field_ops_eq this K σ Hp)).
    by rewrite Hm, HK.
  - intros t v Hne. destruct (set_field_fields t this K v σ Hp)
      as (σ' & Hset & Hs & _).
    exists σ'. split; [done |].
    assert (ptr_ (slot_at σ' this) ≠ None) as Hp' by by rewrite Hs.
    rewrite (proj2 (field_ops_eq this K σ' Hp')).
    unfold fields_or_null. rewrite Hs. simpl. rewrite lookup_insert_eq.
    by rewrite any_cast_other.
Qed.

Lemma reset_adopts_slot σ this (q : ptr) n fuel :
  ancestor n (objects σ) (parent_ (slot_at σ this)) = None →
  ¬ in_walk (objects σ) (parent_ (slot_at σ this)) q → n ≤ fuel →
  ∃ σ', reset fuel this (Some q) σ = Some σ' ∧
        slot_at σ' this = set_ptr (Some q) (slot_at σ this).
Proof.
  intros Hend Hnot Hle. eexists. split.
  - apply reset_accepts.
    destruct (parent_ (slot_at σ this)) as [P|] eqn:HP; [| done].
    destruct (guard_answers n fuel (objects σ) (Some q) (Some P))
      as [[|] Hb]; [by left | done | | done].
    apply guard_true_in_walk in Hb as (c' & [= <-] & Hin). by destruct Hnot.
  - rewrite slot_at_set_parent. apply slot_at_write_eq.
Qed.

Lemma empty_slot_faults this σ :
  ptr_ (slot_at σ this) = None →
  (∀ K, field_exists this K σ =
     (Throw (runtime_error "child_unique_ptr::operator[] on null pointer"), σ)) ∧
  (∀ K u, get_field u this K σ =
     (Throw (runtime_error "child_unique_ptr::operator[] on null pointer"), σ)) ∧
  (∀ K t (v : denote t), set_field this K v σ =
     (Throw (runtime_error "child_unique_ptr::operator[] on null pointer"), σ)) ∧
  (∀ name args, operator_call this name args σ =
     (Throw (runtime_error "child_unique_ptr::operator(): null pointer"), σ)).
Proof.
  intros Hp.
  unfold field_exists, get_field, set_field, operator_call, mbind, index.
  rewrite Hp. by repeat split.
Qed.

(** X10: attributes stay with the slot while it is empty, out of reach.  On a
    slot that owns a value, after [ptr[K] = v] and [release()] each of
    [ptr[K].exists()], a read of [ptr[K]] and [ptr[K] = w] throws
    "operator[] on null pointer" and changes nothing; once the slot has
    adopted a value again, through a [reset] that the cycle check lets
    pass, [exists(K)] is true and the read returns [v]. *)
Theorem attributes_across_release σ this (K : string) (t : tag) (v : denote t)
    (q : ptr) n :
  ptr_ (slot_at σ this) ≠ None →
  ∃ σ1 σ2, set_field this K v σ = (Ok (), σ1) ∧
           (release this σ1).2 = σ2 ∧
           (∀ u, get_field u this K σ2 =
              (Throw (runtime_error
                 "child_unique_ptr::operator[] on null pointer"), σ2)) ∧
           field_exists this K σ2 =
              (Throw (runtime_error
                 "child_unique_ptr::operator[] on null pointer"), σ2) ∧
           (∀ u (w : denote u), set_field this K w σ2 =
              (Throw (runtime_error
                 "child_unique_ptr::operator[] on null pointer"), σ2)) ∧
           (ancestor n (objects σ2) (parent_ (slot_at σ2 this)) = None →
            ¬ in_walk (objects σ2) (parent_ (slot_at σ2 this)) q →
            ∀ fuel, n ≤ fuel →
            ∃ σ3, reset fuel this (Some q) σ2 = Some σ3 ∧
                  field_exists this K σ3 = (Ok true, σ3) ∧
                  get_field t this K σ3 = (Ok v, σ3)).
Proof.
  intros Hp. destruct (set_field_fields t this K v σ Hp)
    as (σ1 & Hset & Hs1 & _).
  exists σ1, (release this σ1).2. split; [done |]. split; [done |].
  assert (slot_at (release this σ1).2 this = set_ptr None (slot_at σ1 this))
    as Hs2.
  { rewrite release_eq. apply slot_at_write_eq. }
  destruct (empty_slot_faults this (release this σ1).2) as (He & Hg & Hw & _);
    [by rewrite Hs2 |].
  split; [by intros u |]. split; [done |]. split; [by intros u w |].
  intros Hend Hnot fuel Hle.
  destruct (reset_adopts_slot _ this q n fuel Hend Hnot Hle) as (σ3 & Hr & Hs3).
  exists σ3. split; [done |].
  assert (ptr_ (slot_at σ3 this) ≠ None) as Hp3 by by rewrite Hs3.
  rewrite (proj1 (field_ops_eq this K σ3 Hp3)).
  rewrite (proj2 (field_ops_eq this K σ3 Hp3)).
  unfold fields_or_null. rewrite Hs3, Hs2, Hs1.
  cbn [dyn_fields_ set_ptr set_fields mbind option_bind].
  rewrite lookup_insert_eq, any_cast_make_any. split; [| done].
  simpl. rewrite lookup_insert_eq.
  by rewrite bool_decide_eq_true_2 by eauto.
Qed.

(** *** Functions of any arity *)

Lemma length_pack (As : list tag) (xs : args_t (denote := denote) As) :
  length (pack As xs) = length As.
Proof. induction As as [|a As IH]; simpl; [done |]. by rewrite IH. Qed.

Lemma call_fn_from_anys_impl_pack (As : list tag) (R : option tag)
    (f : fn_type (denote := denote) As R) (xs : args_t As) :
  call_fn_from_anys_impl As R f (Some <$> pack As xs)
  = Ok (erase_result R (apply_fn As R f xs)).
Proof.
  revert f xs. induction As as [|a As IH]; intros f xs; [done |].
  cbn [pack fmap list_fmap call_fn_from_anys_impl apply_fn].
  change (Some (existT a xs.1)) with (make_any xs.1).
  rewrite any_cast_make_any. cbn [rbind]. apply IH.
Qed.

Lemma call_fn_from_anys_impl_mismatch (As : list tag) (R : option tag)
    (f : fn_type (denote := denote) As R) (args : list {t : tag & denote t}) :
  length args = length As → projT1 <$> args ≠ As →
  call_fn_from_anys_impl As R f (Some <$> args) = Throw bad_any_cast.
Proof.
  revert args f. induction As as [|a As IH]; intros args f Hlen Hty.
  - by destruct args.
  - destruct args as [|[t x] args]; [done |].
    cbn [fmap list_fmap call_fn_from_anys_impl projT1 length] in *.
    destruct (decide (t = a)) as [->|Hne].
    + change (Some (existT a x)) with (make_any x).
      rewrite any_cast_make_any. cbn [rbind]. apply IH; [lia | congruence].
    + change (Some (existT t x)) with (make_any x).
      by rewrite any_cast_other.
Qed.

Lemma def_slot (R : option tag) (As : list tag) this name (f : fn_type As R) σ :
  ∃ σ1, def R As this name f σ = (Ok (), σ1) ∧
        slot_at σ1 this =
          set_fns (Some (<[name := call_fn_from_anys As R f]>
                           (default ∅ (dyn_fns_ (slot_at σ this)))))
                  (slot_at σ this) ∧
        objects σ1 = objects σ ∧
        ∀ j, j ≠ this → slot_at σ1 j = slot_at σ j.
Proof.
  eexists. split; [apply def_eq |]. split; [apply slot_at_write_eq |].
  split; [done |]. intros j Hj. by apply slot_at_write_ne.
Qed.

Lemma call_eq (R : option tag) this name args σ :
  ptr_ (slot_at σ this) ≠ None →
  call R this name args σ =
  (match fns_or_null this σ with
   | None =>
       Throw (runtime_error "child_unique_ptr::operator(): no functions defined")
   | Some m =>
       match m !! name with
       | None =>
           Throw (runtime_error
                    ("child_unique_ptr::operator(): function not found: "
                     +:+ name))
       | Some fn =>
           rbind (fn (Some <$> args)) (λ ret, as_ R (CallResult ret true))
       end
   end, σ).
Proof.
  intros Hp. unfold call, mbind, operator_call.
  destruct (ptr_ (slot_at σ this)); [| done].
  destruct (fns_or_null this σ) as [m|]; [| done].
  destruct (m !! name) as [fn|]; [| done]. simpl.
  by destruct (fn (Some <$> args)).
Qed.

(** X11: the round trip of a dynamic function at any arity and any argument
    types.  On a slot that owns a value, after [def<R, Args...>(name, f)] a
    call with arguments of the types [Args] returns [f(args...)]; a call with
    another number of arguments throws "argument count mismatch"; a call
    with the right number of arguments of which one has another type throws
    [bad_any_cast].  The call leaves the state as it was. *)
Theorem def_call_any_arity σ this (name : string) (As : list tag)
    (R : option tag) (f : fn_type As R) :
  ptr_ (slot_at σ this) ≠ None →
  ∃ σ1, def R As this name f σ = (Ok (), σ1) ∧
        (∀ xs : args_t As,
           call R this name (pack As xs) σ1 = (Ok (apply_fn As R f xs), σ1)) ∧
        (∀ args, length args ≠ length As →
           call R this name args σ1
           = (Throw (runtime_error "dynamic call: argument count mismatch"),
              σ1)) ∧
        (∀ args, length args = length As → projT1 <$> args ≠ As →
           call R this name args σ1 = (Throw bad_any_cast, σ1)).
Proof.
  intros Hp. destruct (def_slot R As this name f σ) as (σ1 & Hdef & Hs & _).
  exists σ1. split; [done |].
  assert (ptr_ (slot_at σ1 this) ≠ None) as Hp1 by by rewrite Hs.
  assert (∀ args, call R this name args σ1 =
            (rbind (call_fn_from_anys As R f (Some <$> args))
                   (λ ret, as_ R (CallResult ret true)), σ1)) as Hcall.
  { intros args. rewrite call_eq by done. unfold fns_or_null.
    rewrite Hs. simpl. by rewrite lookup_insert_eq. }
  split; [| split].
  - intros xs. rewrite Hcall. unfold call_fn_from_anys.
    rewrite length_fmap, length_pack, decide_False by (intros ?; done).
    rewrite call_fn_from_anys_impl_pack. simpl. by rewrite as_erase_result.
  - intros args Hlen. rewrite Hcall. unfold call_fn_from_anys.
    by rewrite length_fmap, decide_True.
  - intros args Hlen Hty. rewrite Hcall. unfold call_fn_from_anys.
    rewrite length_fmap, decide_False by (intros ?; done).
    by rewrite call_fn_from_anys_impl_mismatch.
Qed.

Lemma call_after_def (R R' : option tag) (As : list tag) this name
    (f : fn_type As R) σ1 (xs : args_t As) :
  ptr_ (slot_at σ1 this) ≠ None →
  (∃ m, fns_or_null this σ1 = Some m ∧
        m !! name = Some (call_fn_from_anys As R f)) →
  call R' this name (pack As xs) σ1 =
  (as_ R' (CallResult (erase_result R (apply_fn As R f xs)) true), σ1).
Proof.
  intros Hp (m & Hm & Hname). rewrite call_eq by done. rewrite Hm.
  destruct (m !! name) as [fn|]; [| done]. injection Hname as ->.
  unfold call_fn_from_anys.
  rewrite length_fmap, length_pack, decide_False by (intros ?; done).
  by rewrite call_fn_from_anys_impl_pack.
Qed.

(** X12: the result type of a call is checked against the declared one.  On
    a slot that owns a value, after [def<R, Args...>(name, f)] and with
    well-typed arguments: [call<void>] returns normally whatever [R] is;
    [call<R'>] with [R'] a type other than [R] throws [bad_any_cast]; and
    when [f] returns [void], [call<R'>] throws [bad_any_cast] as well (the
    result object of [operator()] always says it has a value).  The state is
    left as it was. *)
Theorem call_result_type_checked σ this (name : string) (As : list tag)
    (R : option tag) (f : fn_type As R) (xs : args_t As) :
  ptr_ (slot_at σ this) ≠ None →
  ∃ σ1, def R As this name f σ = (Ok (), σ1) ∧
        call None this name (pack As xs) σ1 = (Ok (), σ1) ∧
        (∀ r', R ≠ Some r' →
           call (Some r') this name (pack As xs) σ1 = (Throw bad_any_cast, σ1)).
Proof.
  intros Hp. destruct (def_slot R As this name f σ) as (σ1 & Hdef & Hs & _).
  exists σ1. split; [done |].
  assert (ptr_ (slot_at σ1 this) ≠ None) as Hp1 by by rewrite Hs.
  assert (∃ m, fns_or_null this σ1 = Some m ∧
               m !! name = Some (call_fn_from_anys As R f)) as Hm.
  { eexists. unfold fns_or_null. rewrite Hs. simpl. split; [done |].
    apply lookup_insert_eq. }
  split.
  - by rewrite (call_after_def R None As this name f σ1 xs Hp1 Hm).
  - intros r' Hne.
    rewrite (call_after_def R (Some r') As this name f σ1 xs Hp1 Hm).
    f_equal. destruct R as [r|]; simpl; [| done].
    apply any_cast_other. congruence.
Qed.

(** X13: [def] does not ask whether the slot owns a value.  On an empty
    slot [def<R, Args...>(name, f)] returns normally and a call of [name]
    throws "null pointer"; once the slot has adopted a value, through a
    [reset] that the cycle check lets pass, the call returns
    [f(args...)]. *)
Theorem def_on_empty_slot σ this (name : string) (As : list tag)
    (R : option tag) (f : fn_type As R) (xs : args_t As) (q : ptr) n :
  ptr_ (slot_at σ this) = None →
  ∃ σ1, def R As this name f σ = (Ok (), σ1) ∧
        call R this name (pack As xs) σ1 =
          (Throw (runtime_error "child_unique_ptr::operator(): null pointer"),
           σ1) ∧
        (ancestor n (objects σ1) (parent_ (slot_at σ1 this)) = None →
         ¬ in_walk (objects σ1) (parent_ (slot_at σ1 this)) q →
         ∀ fuel, n ≤ fuel →
         ∃ σ2, reset fuel this (Some q) σ1 = Some σ2 ∧
               call R this name (pack As xs) σ2
               = (Ok (apply_fn As R f xs), σ2)).
Proof.
  intros Hp. destruct (def_slot R As this name f σ) as (σ1 & Hdef & Hs & _).
  exists σ1. split; [done |]. split.
  - assert (ptr_ (slot_at σ1 this) = None) as Hp1 by by rewrite Hs.
    unfold call, mbind.
    by rewrite (proj2 (proj2 (proj2 (empty_slot_faults this σ1 Hp1)))).
  - intros Hend Hnot fuel Hle.
    destruct (reset_adopts_slot _ this q n fuel Hend Hnot Hle)
      as (σ2 & Hr & Hs2).
    exists σ2. split; [done |].
    rewrite (call_after_def R R As this name f σ2 xs).
    + by rewrite as_erase_result.
    + by rewrite Hs2.
    + eexists. unfold fns_or_null. rewrite Hs2, Hs. simpl. split; [done |].
      apply lookup_insert_eq.
Qed.

(** X14: the method registry and the attribute store are two maps.  On a
    slot that owns a value: a second [def] under the same name replaces the
    first, whatever the two signatures; [def] leaves [exists] and the reads
    of every attribute as they were, also under the same name; an
    attribute written under the name of a function leaves the function
    callable; and the call through the proxy, [ptr[name](args...)], is the
    call [ptr(name, args...)]. *)
Theorem registry_and_attributes σ this (name : string)
    (As Bs : list tag) (R S : option tag)
    (f : fn_type As R) (g : fn_type Bs S) (ys : args_t Bs) :
  ptr_ (slot_at σ this) ≠ None →
  ∃ σ1 σ2, def R As this name f σ = (Ok (), σ1) ∧
           def S Bs this name g σ1 = (Ok (), σ2) ∧
           call S this name (pack Bs ys) σ2 = (Ok (apply_fn Bs S g ys), σ2) ∧
           (∀ K, (field_exists this K σ1).1 = (field_exists this K σ).1) ∧
           (∀ K u, (get_field u this K σ1).1 = (get_field u this K σ).1) ∧
           (∀ t (v : denote t),
              ∃ σ3, set_field this name v σ2 = (Ok (), σ3) ∧
                    call S this name (pack Bs ys) σ3
                    = (Ok (apply_fn Bs S g ys), σ3)) ∧
           (∀ args,
              mbind (index this name) (λ px, proxy_call px args) σ2
              = operator_call this name args σ2).
Proof.
  intros Hp. destruct (def_slot R As this name f σ) as (σ1 & Hdef1 & Hs1 & _).
  destruct (def_slot S Bs this name g σ1) as (σ2 & Hdef2 & Hs2 & _).
  exists σ1, σ2. split; [done |]. split; [done |].
  assert (ptr_ (slot_at σ1 this) ≠ None) as Hp1 by by rewrite Hs1.
  assert (ptr_ (slot_at σ2 this) ≠ None) as Hp2 by by rewrite Hs2.
  assert (∃ m, fns_or_null this σ2 = Some m ∧
               m !! name = Some (call_fn_from_anys Bs S g)) as Hm2.
  { eexists. unfold fns_or_null. rewrite Hs2. simpl. split; [done |].
    apply lookup_insert_eq. }
  split; [| split; [| split; [| split]]].
  - rewrite (call_after_def S S Bs this name g σ2 ys Hp2 Hm2).
    by rewrite as_erase_result.
  - intros K. rewrite (proj1 (field_ops_eq this K σ1 Hp1)).
    rewrite (proj1 (field_ops_eq this K σ Hp)).
    unfold fields_or_null. by rewrite Hs1.
  - intros K u. rewrite (proj2 (field_ops_eq this K σ1 Hp1)).
    rewrite (proj2 (field_ops_eq this K σ Hp)).
    unfold fields_or_null. by rewrite Hs1.
  - intros t v. destruct (set_field_fields t this name v σ2 Hp2)
      as (σ3 & Hset & Hs3 & _).
    exists σ3. split; [done |].
    rewrite (call_after_def S S Bs this name g σ3 ys).
    + by rewrite as_erase_result.
    + by rewrite Hs3.
    + destruct Hm2 as (m & Hm & Hname). exists m.
      unfold fns_or_null in *. rewrite Hs3. by simpl.
  - intros args. unfold mbind, index.
    by destruct (ptr_ (slot_at σ2 this)).
Qed.

End DynamicStores.

(** ** Properties of the service helpers *)

Section ServiceProperties.
Context {tag : Type} `{EqDecision tag} {denote : tag → Type} {V D : Type}.
Context `{!Traits} `{!Deleter (denote := denote) V D}.
Context {caps : Service.Capabilities (V := V)}.

Implicit Types (h : gmap ptr (object V)) (σ : state (denote := denote) V D).
Implicit Types (this out : sid).

(** X15: what the helpers answer on an empty slot, whatever [T] can do:
    [to_string] is "<null>", [to_full_string] wraps it with the type name
    (and "parent=null" when [T] is [Backtraceable]), [hash] is 0, [length]
    is 0 and does not throw even when [T] has neither [size()] nor
    [length()], and [full_copy] returns an empty slot with the same recorded
    parent, even when [T] can be neither cloned nor copied. *)
Theorem services_on_empty_slot σ this out (fresh : ptr) fuel :
  ptr_ (slot_at σ this) = None →
  Service.to_string this σ = Some "<null>" ∧
  Service.to_full_string this σ =
    Some ("[" +:+ Service.type_name +:+ " value=<null>" +:+
          (if is_backtraceable then " parent=null" else "") +:+ "]") ∧
  Service.hash this σ = Some 0%N ∧
  Service.length this σ = Some (Service.Returned 0%N) ∧
  ∃ σ', Service.full_copy fuel this out fresh σ = Some (Service.Returned σ') ∧
        ptr_ (slot_at σ' out) = None ∧
        parent_ (slot_at σ' out) = parent_ (slot_at σ this) ∧
        objects σ' = objects σ.
Proof.
  intros Hp.
  unfold Service.to_full_string, Service.to_string, Service.hash,
    Service.length, Service.full_copy.
  rewrite Hp. simpl. repeat split; try done.
  eexists. split; [done |]. unfold construct. by rewrite slot_at_write_eq.
Qed.

Lemma ancestor_insert_off_walk (x : object V) p h start :
  (∀ k, ancestor k h start ≠ Some p) →
  ∀ k, ancestor k (<[p := x]> h) start = ancestor k h start.
Proof.
  intros Hoff k. induction k as [|k IH]; [done |].
  rewrite !ancestor_last, IH.
  destruct (ancestor k h start) as [c|] eqn:Hc; [| done]. simpl.
  unfold parent_field. rewrite lookup_insert_ne; [done |].
  intros ->. by apply (Hoff k).
Qed.

(** X16: [full_copy] of a slot that owns a live value [o], with [T]
    cloneable or copy-constructible ([clone()] is preferred), the new object
    at an address that is not on the walk from the recorded parent, and that
    walk ending.  The call returns a slot with the same recorded parent that
    owns the new object; the new object has the contents the clone or copy
    gave it and, when [T] is [Backtraceable], the recorded parent as its
    back-reference; the returned slot has no attribute and no function, so
    the dynamic stores are not copied; and the source slot, the other slots
    and every other object are untouched. *)
Theorem full_copy_owned σ this out (fresh p : ptr) (o c : object V) n :
  ptr_ (slot_at σ this) = Some p →
  objects σ !! p = Some o →
  match Service.clone_method with
  | Some cl => Some (cl o)
  | None => (λ cc, cc o) <$> Service.copy_constructor
  end = Some c →
  out ≠ this →
  ancestor n (objects σ) (parent_ (slot_at σ this)) = None →
  ¬ in_walk (objects σ) (parent_ (slot_at σ this)) fresh →
  ∀ fuel, n ≤ fuel →
  ∃ σ', Service.full_copy fuel this out fresh σ = Some (Service.Returned σ') ∧
        ptr_ (slot_at σ' out) = Some fresh ∧
        parent_ (slot_at σ' out) = parent_ (slot_at σ this) ∧
        dyn_fields_ (slot_at σ' out) = None ∧
        dyn_fns_ (slot_at σ' out) = None ∧
        objects σ' !! fresh =
          Some (if is_backtraceable
                then Object (parent_ (slot_at σ this)) (body c) else c) ∧
        (∀ q, q ≠ fresh → objects σ' !! q = objects σ !! q) ∧
        (∀ j, j ≠ out → slot_at σ' j = slot_at σ j).
Proof.
  intros Hp Ho Hc Hne Hend Hnot fuel Hle.
  set (P := parent_ (slot_at σ this)) in *.
  set (σ1 := State (<[fresh := c]> (objects σ)) (slots σ)).
  set (σ2 := construct out P σ1).
  assert (slot_at σ2 out = Slot P None default_deleter None None) as Hs2
    by apply slot_at_write_eq.
  assert (∀ k, ancestor k (objects σ2) P = ancestor k (objects σ) P) as Hsame.
  { apply ancestor_insert_off_walk. intros k Hk. apply Hnot. by exists k. }
  assert (reset fuel out (Some fresh) σ2 =
          Some (set_parent_on_child out
                  (write_slot out (set_ptr (Some fresh) (slot_at σ2 out))
                     (destroy_owned out σ2)))) as Hr.
  { apply reset_accepts. rewrite Hs2. simpl.
    destruct P as [P'|] eqn:HP; [| done].
    destruct (guard_answers n fuel (objects σ2) (Some fresh) (Some P'))
      as [[|] Hb]; [left; by rewrite Hsame | done | | done].
    apply guard_true_in_walk in Hb as (c' & [= <-] & [k Hk]).
    destruct Hnot. exists k. by rewrite <- Hsame. }
  assert (Service.full_copy fuel this out fresh σ =
          Service.Returned <$> reset fuel out (Some fresh) σ2) as Hfc.
  { unfold Service.full_copy. rewrite Hp, Ho. fold P. simpl.
    destruct Service.clone_method as [cl|].
    - by injection Hc as <-.
    - destruct Service.copy_constructor as [cc|]; [| done].
      by injection Hc as <-. }
  rewrite Hfc, Hr. simpl. eexists. split; [done |].
  assert (destroy_owned out σ2 = σ2) as ->.
  { unfold destroy_owned. by rewrite Hs2. }
  rewrite !slot_at_set_parent, slot_at_write_eq, Hs2. simpl.
  repeat split; try done.
  - unfold set_parent_on_child. rewrite slot_at_write_eq. simpl.
    destruct is_backtraceable; simpl.
    + by rewrite lookup_alter_eq, lookup_insert_eq.
    + by rewrite lookup_insert_eq.
  - intros q Hq. unfold set_parent_on_child. rewrite slot_at_write_eq. simpl.
    destruct is_backtraceable; simpl.
    + by rewrite lookup_alter_ne, lookup_insert_ne.
    + by rewrite lookup_insert_ne.
  - intros j Hj. rewrite slot_at_set_parent.
    rewrite slot_at_write_ne by done. unfold σ2, construct.
    by rewrite slot_at_write_ne.
Qed.

(** X17: on a slot that owns a live value, [length] throws [logic_error] when
    [T] has neither [size()] nor [length()] and [full_copy] throws
    [logic_error] when [T] can be neither cloned nor copied; when [T] has
    both [size()] and [length()], [length] answers with [size()]. *)
Theorem services_without_capability σ this out (fresh p : ptr) (o : object V)
    fuel :
  ptr_ (slot_at σ this) = Some p →
  objects σ !! p = Some o →
  (Service.size_method = None → Service.length_method = None →
   Service.length this σ =
     Some (Service.Logic_error
             "child_unique_ptr::length(): T has no size()/length()")) ∧
  (∀ f, Service.size_method = Some f →
        Service.length this σ = Some (Service.Returned (f o))) ∧
  (Service.clone_method = None → Service.copy_constructor = None →
   Service.full_copy fuel this out fresh σ =
     Some (Service.Logic_error
       "child_unique_ptr::full_copy(): T is not cloneable or copy-constructible")).
Proof.
  intros Hp Ho. unfold Service.length, Service.full_copy. rewrite Hp.
  split; [| split].
  - by intros -> ->.
  - intros f ->. by rewrite Ho.
  - by intros -> ->.
Qed.

(** X18: a slot with recorded parent [P] adopts, through a [reset] that the
    cycle check lets pass, a value that is live once the value owned before
    is destroyed, and [T] is [Backtraceable] and has [to_string()].  Then
    [to_string] is the [to_string()] of the value as the adoption left it,
    [to_full_string] wraps it with the type name and names the parent as
    "parent@P", [to_text] holds the same string, and [hash] is the [hash()]
    of the value when [T] has one. *)
Theorem full_string_names_parent σ this (P p : ptr) (o : object V) n
    (f : object V → string) :
  is_backtraceable = true →
  Service.to_string_method = Some f →
  parent_ (slot_at σ this) = Some P →
  ancestor n (objects σ) (Some P) = None →
  ¬ in_walk (objects σ) (Some P) p →
  objects (destroy_owned this σ) !! p = Some o →
  ∀ fuel, n ≤ fuel →
  ∃ σ', reset fuel this (Some p) σ = Some σ' ∧
        Service.to_string this σ' = Some (f (Object (Some P) (body o))) ∧
        Service.to_full_string this σ' =
          Some ("[" +:+ Service.type_name +:+ " value=" +:+
                f (Object (Some P) (body o)) +:+
                " parent@" +:+ Service.show_pointer P +:+ "]") ∧
        Service.to_text this σ' = Some (MkText (f (Object (Some P) (body o)))) ∧
        ∀ g, Service.hash_method = Some g →
             Service.hash this σ' = Some (g (Object (Some P) (body o))).
Proof.
  intros Hbt Hf HP Hend Hnot Ho fuel Hle. eexists. split.
  { apply reset_accepts. rewrite HP. by eapply guard_refuses_not. }
  set (σ2 := write_slot this _ (destroy_owned this σ)).
  assert (slot_at σ2 this = set_ptr (Some p) (slot_at σ this)) as Hs
    by apply slot_at_write_eq.
  assert (ptr_ (slot_at (set_parent_on_child this σ2) this) = Some p) as Hptr
    by (by rewrite slot_at_set_parent, Hs).
  assert (objects (set_parent_on_child this σ2) !! p
          = Some (Object (Some P) (body o))) as Hobj.
  { rewrite (objects_set_parent this σ2 p) by (done || by rewrite Hs).
    rewrite Hs. simpl. rewrite HP. unfold σ2. simpl.
    by rewrite lookup_alter_eq, Ho. }
  assert (Service.to_string this (set_parent_on_child this σ2)
          = Some (f (Object (Some P) (body o)))) as Hstr.
  { unfold Service.to_string. by rewrite Hptr, Hf, Hobj. }
  split; [done |]. split; [| split].
  - unfold Service.to_full_string. rewrite Hstr, Hbt, Hptr. simpl.
    unfold parent_field. by rewrite Hobj.
  - unfold Service.to_text. by rewrite Hstr.
  - intros g Hg. unfold Service.hash. by rewrite Hptr, Hg, Hobj.
Qed.

End ServiceProperties.

(** ** The factories *)

Section Factories.
Context {tag : Type} `{EqDecision tag} {denote : tag → Type} {V D : Type}.
Context `{!Traits} `{!Deleter (denote := denote) V D}.

Implicit Types (h : gmap ptr (object V)) (σ : state (denote := denote) V D).
Implicit Types (this tmp : sid).

(** X19: the factories.  [new T(args...)] yields a live object [p] and leaves
    the slot under construction alone, the walk from [parent] ends and does
    not meet [p].  Then [make_child_unique_ptr(parent, args...)] returns a
    slot that owns [p], records [parent], and has no dynamic store; [p]
    has [parent] as its back-reference when [T] is [Backtraceable]; the
    other slots and objects are as the constructor of [T] left them.  With
    no parent the orphan factory gives the same result, for every amount of
    fuel. *)
Theorem make_child_unique_ptr_owns σ σ1 tmp (parent : option ptr) (p : ptr)
    (o : object V) (new_T : state (denote := denote) V D
                             → ptr * state (denote := denote) V D) n :
  new_T (construct tmp parent σ) = (p, σ1) →
  slot_at σ1 tmp = slot_at (construct tmp parent σ) tmp →
  objects σ1 !! p = Some o →
  ancestor n (objects σ1) parent = None →
  ¬ in_walk (objects σ1) parent p →
  ∀ fuel, n ≤ fuel →
  ∃ σ', make_child_unique_ptr fuel tmp parent new_T σ = Some σ' ∧
        (parent = None →
         ∀ fuel', make_child_unique_ptr_orphan fuel' tmp new_T σ = Some σ') ∧
        ptr_ (slot_at σ' tmp) = Some p ∧
        parent_ (slot_at σ' tmp) = parent ∧
        dyn_fields_ (slot_at σ' tmp) = None ∧
        dyn_fns_ (slot_at σ' tmp) = None ∧
        (∀ j, j ≠ tmp → slot_at σ' j = slot_at σ1 j) ∧
        (∀ q, q ≠ p → objects σ' !! q = objects σ1 !! q) ∧
        objects σ' !! p =
          Some (if is_backtraceable then Object parent (body o) else o).
Proof.
  intros Hnew Hslot Ho Hend Hnot fuel Hle.
  assert (slot_at σ1 tmp = Slot parent None default_deleter None None) as Hs1.
  { rewrite Hslot. unfold construct. apply slot_at_write_eq. }
  assert (destroy_owned tmp σ1 = σ1) as Hd
    by (unfold destroy_owned; by rewrite Hs1).
  assert (∀ fuel',
    match Some p, parent_ (slot_at σ1 tmp) with
    | Some _, Some _ =>
        would_create_cycle fuel' (objects σ1) (Some p) (parent_ (slot_at σ1 tmp))
    | _, _ => Some false
    end = Some false →
    reset fuel' tmp (Some p) σ1 =
    Some (set_parent_on_child tmp
            (write_slot tmp (set_ptr (Some p) (slot_at σ1 tmp)) σ1))) as Hreset.
  { intros fuel' Hg. rewrite (reset_accepts fuel' tmp (Some p) σ1 Hg).
    by rewrite Hd. }
  set (σ2 := write_slot tmp (set_ptr (Some p) (slot_at σ1 tmp)) σ1) in *.
  assert (slot_at σ2 tmp = Slot parent (Some p) default_deleter None None)
    as Hs2 by (unfold σ2; by rewrite slot_at_write_eq, Hs1).
  exists (set_parent_on_child tmp σ2). split; [| split].
  - unfold make_child_unique_ptr, emplace. rewrite Hnew. apply Hreset.
    rewrite Hs1. simpl. destruct parent as [P|]; [| done].
    by eapply guard_refuses_not.
  - intros -> fuel'. unfold make_child_unique_ptr_orphan, emplace.
    change (construct_default tmp σ) with (construct tmp None σ).
    rewrite Hnew. apply Hreset. by rewrite Hs1.
  - rewrite slot_at_set_parent, Hs2. simpl. do 4 (split; [done |]).
    split; [| split].
    + intros j Hj. rewrite slot_at_set_parent. unfold σ2.
      by rewrite slot_at_write_ne.
    + intros q Hq. unfold set_parent_on_child. rewrite Hs2. simpl.
      destruct is_backtraceable; [| done]. simpl.
      by rewrite lookup_alter_ne.
    + unfold set_parent_on_child. rewrite Hs2. simpl.
      destruct is_backtraceable; [| done]. simpl.
      by rewrite lookup_alter_eq, Ho.
Qed.

End Factories.


(** ** The literal suffixes *)

Section LiteralSuffixes.
Import Literals.
Local Open Scope Z_scope.

Lemma to_unsigned_value bits v :
  0 ≤ bits → 0 ≤ v →
  0 ≤ to_unsigned bits v < 2 ^ bits ∧
  to_unsigned bits v = Z.land v (Z.ones bits) ∧
  (to_unsigned bits v = v ↔ v < 2 ^ bits) ∧
  (∃ k, v = to_unsigned bits v + k * 2 ^ bits).
Proof.
  intros Hb Hv. unfold to_unsigned.
  assert (0 < 2 ^ bits) as Hpow by (apply Z.pow_pos_nonneg; lia).
  pose proof (Z.mod_pos_bound v (2 ^ bits) Hpow) as Hm.
  split; [done|]. split; [by rewrite Z.land_ones|]. split.
  - split; [lia|]. intros Hlt. apply Z.mod_small. lia.
  - exists (v / 2 ^ bits). rewrite (Z.div_mod v (2 ^ bits)) at 1; lia.
Qed.

Lemma to_signed_value bits v :
  0 < bits → 0 ≤ v →
  - 2 ^ (bits - 1) ≤ to_signed bits v < 2 ^ (bits - 1) ∧
  (to_signed bits v = v ↔ v < 2 ^ (bits - 1)) ∧
  (to_signed bits v < 0 ↔ Z.testbit v (bits - 1) = true) ∧
  (∃ k, v = to_signed bits v + k * 2 ^ bits).
Proof.
  intros Hb Hv. unfold to_signed.
  assert (0 < 2 ^ (bits - 1)) as Hhalf by (apply Z.pow_pos_nonneg; lia).
  assert (2 ^ bits = 2 ^ (bits - 1) * 2) as Hpow.
  { rewrite Z.mul_comm, <- Z.pow_succ_r by lia. f_equal. lia. }
  pose proof (Z.mod_pos_bound v (2 ^ bits) ltac:(lia)) as Hm.
  pose proof (Z.div_mod v (2 ^ bits) ltac:(lia)) as Hdm.
  assert (0 ≤ v / 2 ^ bits) as Hq by (apply Z.div_pos; lia).
  pose proof (Z.rem_mul_r v (2 ^ (bits - 1)) 2 ltac:(lia) ltac:(lia)) as Hr.
  rewrite <- Hpow in Hr.
  pose proof (Z.mod_pos_bound v (2 ^ (bits - 1)) Hhalf) as Hlo.
  pose proof (Z.mod_pos_bound (v / 2 ^ (bits - 1)) 2 ltac:(lia)) as Hbit.
  rewrite Z.testbit_true by lia.
  case_decide as Hd.
  - split; [lia|]. split; [|split].
    + split; [intros Heq; lia|]. intros Hlt. apply Z.mod_small. lia.
    + split; [lia|]. intros Hone. rewrite Hone in Hr. lia.
    + exists (v / 2 ^ bits). lia.
  - split; [lia|]. split; [|split].
    + split; [intros Heq; lia|]. intros Hlt.
      rewrite Z.mod_small in Hd by lia. lia.
    + split; [|lia]. intros _. nia.
    + exists (v / 2 ^ bits + 1). lia.
Qed.

(** X20: each of the suffixes [_u8], [_u16], [_u32], [_u64] and [_u128], of
    width [bits], on a literal [v]: the result is in the range of the type,
    it is [v] with the bits from [bits] up cleared, it differs from [v] by
    a multiple of [2^bits], and it is [v] exactly when [v] is below
    [2^bits]; a larger literal is truncated without a diagnostic. *)
Theorem unsigned_suffix_value op bits v :
  (op, bits) ∈ unsigned_suffixes → ull v →
  0 ≤ op v < 2 ^ bits ∧
  op v = Z.land v (Z.ones bits) ∧
  (op v = v ↔ v < 2 ^ bits) ∧
  (∃ k, v = op v + k * 2 ^ bits).
Proof.
  intros Hin [Hv _]. unfold unsigned_suffixes in Hin.
  repeat (apply elem_of_cons in Hin as [Hin|Hin];
    [injection Hin as -> ->; by apply to_unsigned_value|]).
  by apply elem_of_nil in Hin.
Qed.

(** X21: each of the suffixes [_i8], [_i16], [_i32], [_i64] and [_i128], of
    width [bits], on a literal [v]: the result is in the range of the type
    and differs from [v] by a multiple of [2^bits]; it is [v] exactly when
    [v] is below [2^(bits-1)]; and it is negative exactly when bit
    [bits-1] of [v] is set. *)
Theorem signed_suffix_value op bits v :
  (op, bits) ∈ signed_suffixes → ull v →
  - 2 ^ (bits - 1) ≤ op v < 2 ^ (bits - 1) ∧
  (op v = v ↔ v < 2 ^ (bits - 1)) ∧
  (op v < 0 ↔ Z.testbit v (bits - 1) = true) ∧
  (∃ k, v = op v + k * 2 ^ bits).
Proof.
  intros Hin [Hv _]. unfold signed_suffixes in Hin.
  repeat (apply elem_of_cons in Hin as [Hin|Hin];
    [injection Hin as -> ->; by apply to_signed_value|]).
  by apply elem_of_nil in Hin.
Qed.

End LiteralSuffixes.

(** ** Strong numbers *)

Section StrongNumbers.
Import StrongNum.
Context (int128_is_integral : bool) (sizeof_long_double : Z).
Local Open Scope Z_scope.

Lemma to_unsigned_small b v : 0 ≤ v < 2 ^ b → Literals.to_unsigned b v = v.
Proof. intros. unfold Literals.to_unsigned. by apply Z.mod_small. Qed.

Lemma to_signed_small b v :
  0 < b → - 2 ^ (b - 1) ≤ v < 2 ^ (b - 1) → Literals.to_signed b v = v.
Proof.
  intros Hb Hv. unfold Literals.to_signed.
  assert (0 < 2 ^ (b - 1)) as Hhalf by (apply Z.pow_pos_nonneg; lia).
  assert (2 ^ b = 2 ^ (b - 1) * 2) as Hpow.
  { rewrite Z.mul_comm, <- Z.pow_succ_r by lia. f_equal. lia. }
  destruct (decide (0 ≤ v)) as [Hpos|Hneg].
  - rewrite Z.mod_small by lia. by rewrite decide_True by lia.
  - replace (v mod 2 ^ b) with (v + 2 ^ b).
    + rewrite decide_False by lia. lia.
    + apply (Z.mod_unique _ _ (-1)); lia.
Qed.

Lemma pow_bits_mono a b : bits a / 8 ≤ bits b / 8 → 2 ^ bits a ≤ 2 ^ bits b.
Proof.
  intros Hle. apply Z.pow_le_mono_r; [lia |].
  destruct a, b; simpl in *; vm_compute in Hle; try done; lia.
Qed.

Lemma static_cast_in_range (U : itype) v :
  in_range U v → static_cast U v = v.
Proof.
  destruct U as [|b|b]; simpl; intros Hv.
  - case_decide; lia.
  - by apply to_unsigned_small.
  - apply to_signed_small; [by destruct b | done].
Qed.

Lemma bits_pos b : 8 ≤ bits b.
Proof. destruct b; simpl; lia. Qed.

Lemma bits_sizeof a b : bits a / 8 ≤ bits b / 8 → bits a ≤ bits b.
Proof. destruct a, b; simpl; vm_compute; intros H; try done; by destruct H. Qed.

(** The values of [From] are values of [To] when the trait says widening
    and [To] is not [bool]. *)
Lemma widening_range (From To : itype) v :
  is_widening_type int128_is_integral sizeof_long_double
    (integer From) (integer To) = true →
  To ≠ bool_t ∨ From = bool_t →
  in_range From v → in_range To v.
Proof.
  unfold is_widening_type. intros Hw Hb Hv.
  case_decide as Heq; [by simplify_eq |].
  destruct (is_integral _ (integer From) && is_integral _ (integer To) &&
            bool_decide (is_signed int128_is_integral (integer From)
                         = is_signed int128_is_integral (integer To)))
    eqn:Hint; [| done].
  apply bool_decide_eq_true in Hw.
  apply andb_prop in Hint as [[HF HT]%andb_prop Hs%bool_decide_eq_true].
  destruct From as [|a|a], To as [|b|b]; simpl in *; try done.
  - pose proof (bits_pos b).
    assert (2 ^ 8 ≤ 2 ^ bits b) by (apply Z.pow_le_mono_r; lia). lia.
  - destruct b; simpl in *; congruence.
  - destruct Hb; done.
  - apply bits_sizeof in Hw.
    assert (2 ^ bits a ≤ 2 ^ bits b) by (apply Z.pow_le_mono_r; lia). lia.
  - destruct a, b; simpl in *; congruence.
  - destruct Hb; done.
  - destruct a, b; simpl in *; congruence.
  - apply bits_sizeof in Hw. pose proof (bits_pos a).
    assert (2 ^ (bits a - 1) ≤ 2 ^ (bits b - 1))
      by (apply Z.pow_le_mono_r; lia). lia.
Qed.

(** X27: an implicit conversion between strong numbers keeps the value.
    When the trait calls [From] to [To] widening, for integer types of
    which [To] is not [bool] (or [From] is [bool] as well), every value of
    [From] is a value of [To], the conversion returns it unchanged, and the
    explicit conversion back returns it again. *)
Theorem widening_keeps_value (From To : itype) (x : StrongNumber From) :
  is_widening_type int128_is_integral sizeof_long_double
    (integer From) (integer To) = true →
  To ≠ bool_t ∨ From = bool_t →
  in_range From (value_ x) →
  value_ (convert To x) = value_ x ∧
  in_range To (value_ (convert To x)) ∧
  value_ (convert From (convert To x)) = value_ x.
Proof.
  intros Hw Hb Hv. pose proof (widening_range _ _ _ Hw Hb Hv) as Hto.
  unfold convert. simpl.
  rewrite (static_cast_in_range To) by done.
  split; [done |]. split; [done |]. by apply static_cast_in_range.
Qed.

(** X28: [bool] as a target.  The trait calls the conversion from
    [std::uint8_t] to [bool] widening, so it is implicit, and it takes every
    value above 1 to 1.  No type of the [NumType] table is [bool]. *)
Theorem widening_to_bool (x : StrongNumber (uint_t B8)) :
  1 < value_ x →
  is_widening_type int128_is_integral sizeof_long_double
    (integer (uint_t B8)) (integer bool_t) = true ∧
  value_ (convert bool_t x) = 1 ∧
  ∀ K B, NumType K B ≠ Some (integer bool_t).
Proof.
  intros Hv. split; [reflexivity |]. split.
  - unfold convert. simpl. rewrite decide_False by lia. done.
  - by intros [] [].
Qed.

(** X29: the trait is a preorder on the arithmetic types: every type widens
    to itself, and when [A] widens to [B] and [B] to [C] then [A] widens to
    [C], so implicit conversions chain. *)
Theorem widening_preorder (A B C : ctype) :
  is_widening_type int128_is_integral sizeof_long_double A A = true ∧
  (is_widening_type int128_is_integral sizeof_long_double A B = true →
   is_widening_type int128_is_integral sizeof_long_double B C = true →
   is_widening_type int128_is_integral sizeof_long_double A C = true).
Proof.
  unfold is_widening_type. split; [by rewrite decide_True |].
  intros H1 H2.
  destruct (decide (A = B)) as [->|HAB]; [done |].
  destruct (decide (B = C)) as [->|HBC]; [by rewrite decide_False |].
  destruct (decide (A = C)) as [|HAC]; [done |].
  assert (is_integral int128_is_integral B = true →
          is_floating_point B = false) as HB by (by destruct B).
  destruct (is_integral _ A), (is_integral _ B), (is_integral _ C),
    (is_floating_point A), (is_floating_point B), (is_floating_point C);
    simpl in *; try done; try (by specialize (HB eq_refl));
    repeat case_bool_decide; try done; try lia; congruence.
Qed.

End StrongNumbers.

(** ** Format strings *)

Section Formatting.
Import Format.
Context {F : Type} (float_to_string : F → string).

Lemma scan_shift c rest j : scan c rest j = j + scan c rest 0.
Proof.
  revert j. induction rest as [|x rest IH]; intros j; simpl; [lia|].
  case_decide; [lia|]. rewrite (IH (S j)), (IH 1). lia.
Qed.

Lemma scan_bound c rest : scan c rest 0 ≤ length rest.
Proof.
  induction rest as [|x rest IH]; simpl; [lia|].
  case_decide; [lia|]. rewrite scan_shift. lia.
Qed.

Lemma scan_prefix c rest : c ∉ take (scan c rest 0) rest.
Proof.
  induction rest as [|x rest IH]; simpl; [apply not_elem_of_nil|].
  case_decide; simpl; [apply not_elem_of_nil|].
  rewrite scan_shift. simpl. apply not_elem_of_cons. by split.
Qed.

Lemma scan_hit c rest :
  scan c rest 0 < length rest → rest !! scan c rest 0 = Some c.
Proof.
  induction rest as [|x rest IH]; simpl; [lia|].
  case_decide; [by subst|].
  rewrite scan_shift. simpl. intros. apply IH. lia.
Qed.

Lemma scan_absent c l : c ∉ l → scan c l 0 = length l.
Proof.
  induction l as [|x l IH]; simpl; [done|]. intros Hc.
  rewrite decide_False by set_solver. rewrite scan_shift, IH by set_solver. done.
Qed.

Lemma scan_found c l r : c ∉ l → scan c (l ++ c :: r) 0 = length l.
Proof.
  induction l as [|x l IH]; simpl; intros Hc.
  - by rewrite decide_True.
  - rewrite decide_False by set_solver. rewrite scan_shift, IH by set_solver. done.
Qed.

Lemma parse_loop_acc fuel fmt i tokens :
  parse_loop fuel fmt i tokens = tokens ++ parse_loop fuel fmt i [].
Proof.
  revert i tokens. induction fuel as [|fuel IH]; intros i tokens; simpl.
  { by rewrite app_nil_r. }
  destruct (fmt !! i) as [c|]; [|by rewrite app_nil_r].
  repeat case_decide; try done.
  - rewrite IH. rewrite (IH _ [_]). by rewrite <- app_assoc.
  - rewrite IH. rewrite (IH _ [_]). by rewrite <- app_assoc.
Qed.

Lemma scan_from_shift c fmt i k :
  scan_from c fmt (i + k) = i + scan_from c (drop i fmt) k.
Proof.
  unfold scan_from. rewrite drop_drop.
  rewrite (scan_shift _ _ (i + k)), (scan_shift _ _ k). lia.
Qed.

Lemma parse_loop_shift fuel fmt i k :
  i ≤ length fmt →
  parse_loop fuel fmt (i + k) [] = parse_loop fuel (drop i fmt) k [].
Proof.
  intros Hi. revert k. induction fuel as [|fuel IH]; intros k; simpl; [done|].
  rewrite lookup_drop. destruct (fmt !! (i + k)) as [c|]; [|done].
  rewrite length_drop, !drop_drop.
  replace (i + k + 1) with (i + (k + 1)) by lia.
  rewrite (scan_from_shift "}" fmt i (k + 1)), (scan_from_shift "{" fmt i k).
  case_decide.
  - case_decide; case_decide; try lia.
    + do 2 f_equal. f_equal. lia.
    + rewrite parse_loop_acc, (parse_loop_acc _ (drop i fmt)).
      replace (i + scan_from "}" (drop i fmt) (k + 1) + 1)
        with (i + (scan_from "}" (drop i fmt) (k + 1) + 1)) by lia.
      rewrite IH. do 3 f_equal. f_equal. lia.
  - rewrite parse_loop_acc, (parse_loop_acc _ (drop i fmt)).
    rewrite IH. do 3 f_equal. f_equal. lia.
Qed.

Lemma scan_from_ge c fmt j : j ≤ scan_from c fmt j.
Proof. unfold scan_from. rewrite scan_shift. lia. Qed.

Lemma scan_from_skip c d fmt i :
  fmt !! i = Some d → d ≠ c → scan_from c fmt i = scan_from c fmt (i + 1).
Proof.
  intros Hd Hne. unfold scan_from.
  rewrite (drop_S _ _ _ Hd). simpl. rewrite decide_False by done.
  by rewrite Nat.add_1_r.
Qed.

Lemma parse_loop_fuel fuel fuel' fmt i :
  length fmt - i ≤ fuel → length fmt - i ≤ fuel' →
  parse_loop fuel fmt i [] = parse_loop fuel' fmt i [].
Proof.
  revert fuel' i. induction fuel as [|fuel IH]; intros fuel' i Hf Hf'.
  - destruct fuel' as [|fuel']; [done|]. simpl.
    by rewrite (lookup_ge_None_2 fmt i) by lia.
  - destruct fuel' as [|fuel'].
    { simpl. by rewrite (lookup_ge_None_2 fmt i) by lia. }
    simpl. destruct (fmt !! i) as [c|] eqn:Hc; [|done].
    apply lookup_lt_Some in Hc as Hlt.
    case_decide.
    + case_decide; [done|].
      pose proof (scan_from_ge "}" fmt (i + 1)).
      rewrite parse_loop_acc, (parse_loop_acc fuel'). f_equal.
      apply IH; lia.
    + pose proof (scan_from_ge "{" fmt (i + 1)).
      rewrite (scan_from_skip "{" c fmt i) in * by done.
      rewrite parse_loop_acc, (parse_loop_acc fuel'). f_equal.
      apply IH; lia.
Qed.

(** Past index [i] the parser works on the rest of the string alone, and
    [length fmt - i] rounds are enough. *)
Lemma parse_loop_suffix fuel fmt i tokens :
  i ≤ length fmt → length fmt - i ≤ fuel →
  parse_loop fuel fmt i tokens = tokens ++ parse_format (drop i fmt).
Proof.
  intros Hi Hf. rewrite parse_loop_acc. f_equal.
  unfold parse_format.
  rewrite <- (Nat.add_0_r i) at 1. rewrite parse_loop_shift by done.
  apply parse_loop_fuel; rewrite length_drop; lia.
Qed.

Lemma parse_format_open r :
  parse_format ("{"%char :: r) =
  if decide (length r ≤ scan "}" r 0) then [MkToken Text ("{"%char :: r)]
  else MkToken Placeholder (take (scan "}" r 0) r)
         :: parse_format (drop (S (scan "}" r 0)) r).
Proof.
  unfold parse_format. cbn [length parse_loop lookup list_lookup].
  rewrite decide_True by done.
  unfold scan_from. cbn [Nat.add drop]. rewrite drop_0, (scan_shift _ _ 1).
  case_decide; case_decide; try (simpl in *; lia).
  - simpl. by rewrite take_ge by lia.
  - rewrite parse_loop_suffix by (simpl in *; lia).
    cbn [app]. f_equal.
    + f_equal. simpl. f_equal. lia.
    + f_equal. by rewrite Nat.add_1_r.
Qed.

Lemma parse_format_text c r :
  c ≠ "{"%char →
  parse_format (c :: r) =
  MkToken Text (c :: take (scan "{" r 0) r)
    :: parse_format (drop (scan "{" r 0) r).
Proof.
  intros Hc. unfold parse_format. cbn [length parse_loop lookup list_lookup].
  rewrite decide_False by done.
  unfold scan_from. cbn [drop scan]. rewrite decide_False by done.
  rewrite (scan_shift _ _ 1).
  pose proof (scan_bound "{" r).
  rewrite parse_loop_suffix by (simpl; lia). by simpl.
Qed.

Lemma parse_format_placeholder name post :
  "}"%char ∉ name →
  parse_format ("{"%char :: name ++ "}"%char :: post) =
  MkToken Placeholder name :: parse_format post.
Proof.
  intros Hn. rewrite parse_format_open, scan_found by done.
  rewrite decide_False by (rewrite length_app; simpl; lia).
  rewrite take_app_length.
  replace (S (length name)) with (length name + 1) by lia.
  by rewrite <- drop_drop, drop_app_length.
Qed.

Lemma parse_format_chunk pre rest :
  "{"%char ∉ pre →
  parse_format (pre ++ "{"%char :: rest) =
  (if decide (pre = []) then [] else [MkToken Text pre])
    ++ parse_format ("{"%char :: rest).
Proof.
  intros Hp. destruct pre as [|c pre]; [done|].
  apply not_elem_of_cons in Hp as [Hc Hp].
  rewrite decide_False by done.
  change ((c :: pre) ++ "{"%char :: rest) with (c :: (pre ++ "{"%char :: rest)).
  rewrite parse_format_text, scan_found by done.
  by rewrite take_app_length, drop_app_length.
Qed.

Lemma format_acc (fields : FieldMap F) tokens out :
  fold_left (format_token float_to_string fields) tokens out =
  out ++ format_with_parsed float_to_string tokens fields.
Proof.
  unfold format_with_parsed. revert out.
  induction tokens as [|t tokens IH]; intros out; simpl.
  { by rewrite app_nil_r. }
  rewrite IH, (IH (format_token _ _ [] t)).
  rewrite app_assoc. f_equal.
  unfold format_token. destruct (kind t); [done|].
  destruct (fields !! _); [done|]. simpl. by rewrite <- app_assoc.
Qed.

Lemma format_cons (fields : FieldMap F) t tokens :
  format_with_parsed float_to_string (t :: tokens) fields =
  format_token float_to_string fields [] t
    ++ format_with_parsed float_to_string tokens fields.
Proof. unfold format_with_parsed at 1. simpl. apply format_acc. Qed.

Lemma format_app (fields : FieldMap F) ts tokens :
  format_with_parsed float_to_string (ts ++ tokens) fields =
  format_with_parsed float_to_string ts fields
    ++ format_with_parsed float_to_string tokens fields.
Proof.
  unfold format_with_parsed at 1. rewrite fold_left_app.
  fold (format_with_parsed float_to_string ts fields). apply format_acc.
Qed.

(** X22: the tokens of [parse_format].  There are at most as many tokens as
    characters, so the token array of [N] entries is never overrun; the
    name of a placeholder holds no closing brace; a text token is never
    empty, and it either holds no opening brace or is the rest of the
    string after an opening brace that is never closed. *)
Theorem parse_format_tokens fmt :
  length (parse_format fmt) ≤ length fmt ∧
  Forall (λ t,
    match kind t with
    | Placeholder => "}"%char ∉ sv t
    | Text =>
        sv t ≠ [] ∧
        ("{"%char ∉ sv t ∨ ∃ r, sv t = "{"%char :: r ∧ "}"%char ∉ r)
    end) (parse_format fmt).
Proof.
  remember (length fmt) as n eqn:Hn. revert fmt Hn.
  induction n as [n IH] using lt_wf_ind. intros fmt ->.
  destruct fmt as [|c r]; [by split; [|constructor]|].
  destruct (decide (c = "{"%char)) as [->|Hc].
  - rewrite parse_format_open. pose proof (scan_prefix "}" r) as Hpre.
    pose proof (scan_bound "}" r) as Hb.
    case_decide as Hk.
    + split; [simpl; lia|]. constructor; [|constructor]. simpl.
      split; [done|]. right. exists r. split; [done|].
      by rewrite take_ge in Hpre by lia.
    + destruct (IH (length (drop (S (scan "}" r 0)) r))
        ltac:(rewrite length_drop; simpl; lia) _ eq_refl) as [Hlen Hall].
      rewrite length_drop in Hlen.
      split; [simpl; lia|]. by constructor.
  - rewrite parse_format_text by done. pose proof (scan_prefix "{" r) as Hpre.
    destruct (IH (length (drop (scan "{" r 0) r))
      ltac:(rewrite length_drop; simpl; lia) _ eq_refl) as [Hlen Hall].
    rewrite length_drop in Hlen.
    split; [simpl; lia|]. constructor; [|done]. simpl.
    split; [done|]. left. apply not_elem_of_cons. split; [congruence|done].
Qed.

(** X23: every placeholder token is a piece of the format string that
    stands between an opening and a closing brace. *)
Theorem placeholder_is_braced fmt name :
  MkToken Placeholder name ∈ parse_format fmt →
  ∃ pre post, fmt = pre ++ "{"%char :: name ++ "}"%char :: post.
Proof.
  remember (length fmt) as n eqn:Hn. revert fmt Hn.
  induction n as [n IH] using lt_wf_ind. intros fmt ->.
  destruct fmt as [|c r]; [by intros ?%elem_of_nil|].
  destruct (decide (c = "{"%char)) as [->|Hc].
  - rewrite parse_format_open. case_decide as Hk.
    + intros Hin%list_elem_of_singleton. discriminate.
    + intros [Heq|Hin]%elem_of_cons.
      * injection Heq as ->. exists [], (drop (S (scan "}" r 0)) r). simpl.
        f_equal. symmetry. apply take_drop_middle, scan_hit. lia.
      * destruct (IH (length (drop (S (scan "}" r 0)) r))
          ltac:(rewrite length_drop; simpl; lia) _ eq_refl Hin)
          as (pre & post & Heq).
        exists ("{"%char :: take (S (scan "}" r 0)) r ++ pre), post.
        simpl. f_equal. rewrite <- app_assoc, <- Heq. by rewrite take_drop.
  - rewrite parse_format_text by done.
    intros [Heq|Hin]%elem_of_cons; [discriminate|].
    destruct (IH (length (drop (scan "{" r 0) r))
      ltac:(rewrite length_drop; simpl; lia) _ eq_refl Hin)
      as (pre & post & Heq).
    exists (c :: take (scan "{" r 0) r ++ pre), post.
    simpl. f_equal. rewrite <- app_assoc, <- Heq. by rewrite take_drop.
Qed.

(** X24: a format string of which no placeholder is bound in the field map
    is printed as it is, braces included; with an empty map this is every
    format string. *)
Theorem format_unbound fmt (fields : FieldMap F) :
  (∀ name, MkToken Placeholder name ∈ parse_format fmt →
     fields !! string_of_list_ascii name = None) →
  __F float_to_string fmt fields = fmt.
Proof.
  unfold __F.
  remember (length fmt) as n eqn:Hn. revert fmt Hn.
  induction n as [n IH] using lt_wf_ind. intros fmt -> Hun.
  destruct fmt as [|c r]; [done|].
  destruct (decide (c = "{"%char)) as [->|Hc].
  - rewrite parse_format_open in Hun |- *. case_decide as Hk; [done|].
    rewrite format_cons. unfold format_token at 1. simpl.
    rewrite Hun by apply list_elem_of_here. simpl. f_equal.
    rewrite <- app_assoc. simpl.
    rewrite (IH (length (drop (S (scan "}" r 0)) r))
      ltac:(rewrite length_drop; simpl; lia) _ eq_refl).
    + apply take_drop_middle, scan_hit. lia.
    + intros name Hin. apply Hun. by apply list_elem_of_further.
  - rewrite parse_format_text in Hun |- * by done.
    rewrite format_cons. unfold format_token at 1. simpl. f_equal.
    rewrite (IH (length (drop (scan "{" r 0) r))
      ltac:(rewrite length_drop; simpl; lia) _ eq_refl).
    + apply take_drop.
    + intros name Hin. apply Hun. by apply list_elem_of_further.
Qed.

(** X25: substitution is done placeholder by placeholder.  For a text [pre]
    without opening brace and a name without closing brace, the print of
    [pre{name}post] is [pre], then the field bound to [name] as
    [any_to_string] shows it (or [{name}] itself when no field is bound),
    then the print of [post]. *)
Theorem format_substitutes pre name post (fields : FieldMap F) :
  "{"%char ∉ pre → "}"%char ∉ name →
  __F float_to_string (pre ++ "{"%char :: name ++ "}"%char :: post) fields =
  pre ++
  match fields !! string_of_list_ascii name with
  | Some a => list_ascii_of_string (any_to_string float_to_string a)
  | None => "{"%char :: name ++ ["}"%char]
  end ++ __F float_to_string post fields.
Proof.
  intros Hpre Hname. unfold __F.
  rewrite parse_format_chunk, parse_format_placeholder by done.
  rewrite format_app, format_cons. f_equal.
  case_decide as Hp; [by subst|]. by rewrite format_cons, app_nil_r.
Qed.

Lemma add_field_lookup (m : FieldMap F) name value k :
  add_field m name value !! k =
  match m !! k with
  | Some a => Some a
  | None => if decide (k = name) then Some value else None
  end.
Proof.
  unfold add_field. destruct (m !! name) as [a|] eqn:Hm.
  - destruct (m !! k) eqn:Hk; [done|]. case_decide; [congruence|done].
  - destruct (decide (k = name)) as [->|Hne].
    + by rewrite lookup_insert_eq, Hm.
    + rewrite lookup_insert_ne by done. by destruct (m !! k).
Qed.

Lemma fold_add_field_lookup pairs (m : FieldMap F) k :
  fold_left (λ m p, add_field m p.1 p.2) pairs m !! k =
  match m !! k with
  | Some a => Some a
  | None => make_field_map pairs !! k
  end.
Proof.
  unfold make_field_map. revert m.
  induction pairs as [|[n v] pairs IH]; intros m; simpl.
  { by destruct (m !! k). }
  rewrite IH, (IH (add_field ∅ n v)), !add_field_lookup, lookup_empty.
  simpl. destruct (m !! k); [done|]. by case_decide.
Qed.

(** X26: [make_field_map] keeps the first pair of each name: a name that no
    pair has is not bound, and a name is bound to the value of the first
    pair that has it, whatever follows. *)
Theorem make_field_map_first_wins
    (pairs : list (string * any (denote := fdenote F))) name :
  (name ∉ pairs.*1 → make_field_map pairs !! name = None) ∧
  (∀ before value after,
     pairs = before ++ (name, value) :: after → name ∉ before.*1 →
     make_field_map pairs !! name = Some value).
Proof.
  split.
  - induction pairs as [|[n v] pairs IH]; [done|].
    intros [Hne Hnot]%not_elem_of_cons. unfold make_field_map. simpl.
    rewrite fold_add_field_lookup, add_field_lookup, lookup_empty.
    simpl in Hne. rewrite decide_False by done. by apply IH.
  - intros before value after -> Hnot.
    induction before as [|[n v] before IH]; unfold make_field_map; simpl.
    + rewrite fold_add_field_lookup, add_field_lookup, lookup_empty.
      by rewrite decide_True.
    + apply not_elem_of_cons in Hnot as [Hne Hnot].
      rewrite fold_add_field_lookup, add_field_lookup, lookup_empty.
      simpl in Hne. rewrite decide_False by done. by apply IH.
Qed.

End Formatting.

(** ** Scenarios of the further properties *)

Section OwnershipScenarios.
Import NodeTest.



(** X3 at [holder->left->left.reset(holder.get()); holder->left.release();]. *)
Lemma guarded_program_keeps_acyclic_witness :
  acyclic (objects (default held_state
    (run_ops 2 [OpReset 3 (Some 1%positive); OpRelease 1] held_state))).
Proof.
  apply (guarded_program_keeps_acyclic 2
           [OpReset 3 (Some 1%positive); OpRelease 1] held_state);
    [reflexivity | apply default_delete_only_removes | apply held_acyclic
    | by vm_compute].
Defined.

(** X4 at [root.left.reset(root.left.release())]. *)
Lemma release_then_reset_restores_witness :
  ∃ σ1 σ2, release 1 child_state = (Some 2%positive, σ1) ∧
           reset 1 1 (Some 2%positive) σ1 = Some σ2 ∧
           objects σ2 = objects child_state.
Proof.
  destruct (release_then_reset_restores child_state 1 2
              (Object (Some 1%positive) (MkNode 2 3 4)) 1) with (fuel := 1)
    as (σ1 & σ2 & H1 & _ & H2 & H3 & _);
    [reflexivity | reflexivity | reflexivity | reflexivity
    | apply (walk_false_not_in 1); by vm_compute | lia |].
  exists σ1, σ2. split; [exact H1 |]. split; [exact H2 | exact H3].
Defined.

(** X5 at [root.left.swap(root.right)] done twice. *)
Lemma swap_twice_restores_witness :
  objects (swap 1 2 (swap 1 2 two_children)) = objects two_children.
Proof.
  apply (swap_twice_restores two_children 1 2).
  - intros p o Hp Ho. vm_compute in Hp. injection Hp as <-.
    vm_compute in Ho. injection Ho as <-. reflexivity.
  - intros p o Hp Ho. vm_compute in Hp. injection Hp as <-.
    vm_compute in Ho. injection Ho as <-. reflexivity.
Defined.

(** X6 at [root.left->left = std::unique_ptr<Node>(&root)]. *)
Lemma foreign_adoption_refused_witness :
  assign_unique 1 3 (Some 1%positive) child_state = Some (None, child_state).
Proof.
  destruct (foreign_adoption_refused child_state 3 2 1 1 1) as [H _];
    [reflexivity | reflexivity | reflexivity | lia |].
  apply H. reflexivity.
Defined.

(** X7 at [holder->left->left = std::move(holder)]. *)
Lemma move_assign_refusal_witness :
  ∃ σ', move_assign 1 3 5 held_state = Some σ' ∧
        ptr_ (slot_at σ' 5) = None ∧
        objects σ' !! 1%positive = Some (Object None (MkNode 1 1 2)).
Proof.
  destruct (move_assign_refusal held_state 3 5 2 1
              (Object None (MkNode 1 1 2)) 1 1)
    as (σ' & H1 & _ & _ & _ & _ & _ & H2 & _ & _ & H3 & _);
    [reflexivity | reflexivity | done | reflexivity | reflexivity
    | reflexivity | reflexivity | lia |].
  exists σ'. split; [exact H1 |]. split; [exact H2 | exact H3].
Defined.

End OwnershipScenarios.

Section DynamicScenarios.
Import NodeTest.


(** X9 at [int hp = root.left["hp"]] before any attribute was written. *)
Lemma get_field_faults_witness :
  get_field TInt 1 "hp" child_state =
    (Throw (runtime_error "field_proxy: no dynamic fields map"), child_state).
Proof.
  destruct (get_field_faults child_state 1 "hp" TInt) as [H _];
    [by vm_compute |].
  apply H. reflexivity.
Defined.

(** X10 at [root.left["hp"] = 100; root.left.release();]. *)
Lemma attributes_across_release_witness :
  ∃ σ1 σ2, set_field (t := TInt) 1 "hp" 100%Z child_state = (Ok (), σ1) ∧
           (release 1 σ1).2 = σ2 ∧
           field_exists 1 "hp" σ2 =
             (Throw (runtime_error
                "child_unique_ptr::operator[] on null pointer"), σ2).
Proof.
  destruct (attributes_across_release child_state 1 "hp" TInt 100%Z 2 1)
    as (σ1 & σ2 & H1 & H2 & _ & H3 & _); [by vm_compute |].
  exists σ1, σ2. split; [exact H1 |]. split; [exact H2 | exact H3].
Defined.

(** X11 at [def<int, int>("neg", -)] and [call<int>("neg", 5)]. *)
Lemma def_call_any_arity_witness :
  ∃ σ1, def (Some TInt) [TInt] 1 "neg" Z.opp child_state = (Ok (), σ1) ∧
        call (Some TInt) 1 "neg" [existT TInt 5%Z] σ1 = (Ok (-5)%Z, σ1).
Proof.
  destruct (def_call_any_arity child_state 1 "neg" [TInt] (Some TInt) Z.opp)
    as (σ1 & H1 & H2 & _); [by vm_compute |].
  exists σ1. split; [exact H1 | exact (H2 (5%Z, ()))].
Defined.

(** X12 at [def<int, int, int>("add", +)] and [call<void>("add", 10, 20)]. *)
Lemma call_result_type_checked_witness :
  ∃ σ1, def (Some TInt) [TInt; TInt] 1 "add" Z.add child_state = (Ok (), σ1) ∧
        call None 1 "add" [existT TInt 10%Z; existT TInt 20%Z] σ1
          = (Ok (), σ1).
Proof.
  destruct (call_result_type_checked child_state 1 "add" [TInt; TInt]
              (Some TInt) Z.add (10%Z, (20%Z, ())))
    as (σ1 & H1 & H2 & _); [by vm_compute |].
  exists σ1. split; [exact H1 | exact H2].
Defined.

(** X13 at [root.left.def<int, int, int>("add", +)] on the empty slot of a
    fresh root. *)
Lemma def_on_empty_slot_witness :
  ∃ σ1, def (Some TInt) [TInt; TInt] 1 "add" Z.add root_state = (Ok (), σ1) ∧
        call (Some TInt) 1 "add" [existT TInt 10%Z; existT TInt 20%Z] σ1 =
          (Throw (runtime_error "child_unique_ptr::operator(): null pointer"),
           σ1).
Proof.
  destruct (def_on_empty_slot root_state 1 "add" [TInt; TInt] (Some TInt)
              Z.add (10%Z, (20%Z, ())) 2 1)
    as (σ1 & H1 & H2 & _); [reflexivity |].
  exists σ1. split; [exact H1 | exact H2].
Defined.

(** X14 at [def<int, int>("f", -)] followed by [def<int, int, int>("f", +)]. *)
Lemma registry_and_attributes_witness :
  ∃ σ1 σ2, def (Some TInt) [TInt] 1 "f" Z.opp child_state = (Ok (), σ1) ∧
           def (Some TInt) [TInt; TInt] 1 "f" Z.add σ1 = (Ok (), σ2) ∧
           call (Some TInt) 1 "f" [existT TInt 10%Z; existT TInt 20%Z] σ2
             = (Ok 30%Z, σ2).
Proof.
  destruct (registry_and_attributes child_state 1 "f" [TInt] [TInt; TInt]
              (Some TInt) (Some TInt) Z.opp Z.add (10%Z, (20%Z, ())))
    as (σ1 & σ2 & H1 & H2 & H3 & _); [by vm_compute |].
  exists σ1, σ2. split; [exact H1 |]. split; [exact H2 | exact H3].
Defined.

End DynamicScenarios.

Section ServiceScenarios.
Import NodeTest NodeService.

(** X15 at the empty [root.left] of a fresh root. *)
Lemma services_on_empty_slot_witness :
  Service.to_string 1 root_state = Some "<null>" ∧
  Service.hash 1 root_state = Some 0%N ∧
  Service.length 1 root_state = Some (Service.Returned 0%N).
Proof.
  destruct (services_on_empty_slot root_state 1 9 9 0)
    as (H1 & _ & H2 & H3 & _); [reflexivity |].
  split; [exact H1 |]. split; [exact H2 | exact H3].
Defined.

(** X17 at [root.left.length()] and [root.left.full_copy()] with the child
    owned. *)
Lemma services_without_capability_witness :
  Service.length 1 child_state =
    Some (Service.Logic_error
            "child_unique_ptr::length(): T has no size()/length()") ∧
  Service.full_copy 1 1 9 3 child_state =
    Some (Service.Logic_error
      "child_unique_ptr::full_copy(): T is not cloneable or copy-constructible").
Proof.
  destruct (services_without_capability child_state 1 9 3 2
              (Object (Some 1%positive) (MkNode 2 3 4)) 1)
    as (H1 & _ & H2); [reflexivity | reflexivity |].
  split; [apply H1; reflexivity | apply H2; reflexivity].
Defined.

(** X18 at [root.left.reset(new Node(10))]. *)
Lemma full_string_names_parent_witness :
  ∃ σ', reset 1 1 (Some 3%positive) replacement_state = Some σ' ∧
        Service.to_string 1 σ' = Some "Node(10)" ∧
        Service.to_full_string 1 σ' = Some "[4Node value=Node(10) parent@1]".
Proof.
  destruct (full_string_names_parent replacement_state 1 1 3
              (Object None (MkNode 10 5 6)) 1
              (λ o, "Node(" +:+ pretty (value (body o)) +:+ ")"))
    with (fuel := 1) as (σ' & H1 & H2 & H3 & _);
    [reflexivity | reflexivity | reflexivity | reflexivity
    | apply (walk_false_not_in 1); by vm_compute | by vm_compute | lia |].
  exists σ'. split; [exact H1 |]. split; [exact H2 | exact H3].
Defined.

End ServiceScenarios.

Section CopyScenarios.
Import NodeTest.

(** X16 at a copyable value owned by slot 1, copied to address 3 and
    returned in slot 9. *)
Lemma full_copy_owned_witness :
  ∃ σ', Service.full_copy (caps := NodeService.copyable_capabilities)
          1 1 9 3 child_state = Some (Service.Returned σ') ∧
        ptr_ (slot_at σ' 9) = Some 3%positive ∧
        dyn_fields_ (slot_at σ' 9) = None.
Proof.
  destruct (full_copy_owned (caps := NodeService.copyable_capabilities)
              child_state 1 9 3 2
              (Object (Some 1%positive) (MkNode 2 3 4))
              (Object (Some 1%positive) (MkNode 2 3 4)) 1) with (fuel := 1)
    as (σ' & H1 & H2 & _ & H3 & _);
    [reflexivity | reflexivity | reflexivity | done | reflexivity
    | apply (walk_false_not_in 1); by vm_compute | lia |].
  exists σ'. split; [exact H1 |]. split; [exact H2 | exact H3].
Defined.

End CopyScenarios.

Section FactoryScenarios.
Import NodeTest.

(** X19 at [Node root(1); auto ptr = make_child_unique_ptr<Node>(&root, 7);] with
    [ptr] at slot 9 and the new node at address 3. *)
Lemma make_child_unique_ptr_owns_witness :
  ∃ σ', make_child_unique_ptr 1 9 (Some 1%positive) (Node_new 3 5 6 7)
          root_state = Some σ' ∧
        ptr_ (slot_at σ' 9) = Some 3%positive ∧
        objects σ' !! 3%positive
          = Some (Object (Some 1%positive) (MkNode 7 5 6)).
Proof.
  destruct (make_child_unique_ptr_owns root_state
              (Node_new 3 5 6 7 (construct 9 (Some 1%positive) root_state)).2
              9 (Some 1%positive) 3 (Object None (MkNode 7 5 6))
              (Node_new 3 5 6 7) 1) with (fuel := 1)
    as (σ' & H1 & _ & H2 & _ & _ & _ & _ & _ & H3);
    [reflexivity | reflexivity | reflexivity | reflexivity
    | apply (walk_false_not_in 1); by vm_compute | lia |].
  exists σ'. split; [exact H1 |]. split; [exact H2 | exact H3].
Defined.

End FactoryScenarios.

Section FormatScenarios.
Import Format.

(** X23 at [parse_format("a{x}")]. *)
Lemma placeholder_is_braced_witness :
  ∃ pre post,
    list_ascii_of_string "a{x}" =
    pre ++ "{"%char :: list_ascii_of_string "x" ++ "}"%char :: post.
Proof.
  apply (placeholder_is_braced (list_ascii_of_string "a{x}")
           (list_ascii_of_string "x")).
  vm_compute. apply list_elem_of_further, list_elem_of_here.
Defined.

(** X24 at [__F("x={x}", {})]. *)
Lemma format_unbound_witness :
  __F no_floats (list_ascii_of_string "x={x}") ∅ = list_ascii_of_string "x={x}".
Proof.
  apply (format_unbound no_floats (list_ascii_of_string "x={x}") ∅).
  intros name _. reflexivity.
Defined.

(** X25 at [int x = 42; F("x={x}!", x);]. *)
Lemma format_substitutes_witness :
  __F no_floats (list_ascii_of_string "x={x}!")
      (make_field_map [("x", Some (existT FInt 42%Z))])
  = list_ascii_of_string "x=42!".
Proof.
  etransitivity.
  - apply (format_substitutes no_floats (list_ascii_of_string "x=")
             (list_ascii_of_string "x") (list_ascii_of_string "!")
             (make_field_map [("x", Some (existT FInt 42%Z))]));
      apply (bool_decide_unpack _); by vm_compute.
  - by vm_compute.
Defined.

(** X26 at [make_field_map({"x", 1}, {"x", 2})]. *)
Lemma make_field_map_first_wins_witness :
  make_field_map (F := Empty_set)
    [("x", Some (existT FInt 1%Z)); ("x", Some (existT FInt 2%Z))] !! "x"
  = Some (Some (existT FInt 1%Z)).
Proof.
  apply (proj2 (make_field_map_first_wins
                  [("x", Some (existT FInt 1%Z)); ("x", Some (existT FInt 2%Z))]
                  "x") [] _ [("x", Some (existT FInt 2%Z))]);
    [reflexivity | apply not_elem_of_nil].
Defined.

End FormatScenarios.

Section LiteralScenarios.
Import Literals.

(** X20 at [300_u8]. *)
Lemma unsigned_suffix_value_witness : operator_u8 300 = Z.land 300 (Z.ones 8).
Proof.
  destruct (unsigned_suffix_value operator_u8 8 300) as (_ & H & _);
    [apply list_elem_of_here | unfold ull; lia | exact H].
Defined.

(** X21 at [200_i8]. *)
Lemma signed_suffix_value_witness :
  (operator_i8 200 < 0 ↔ Z.testbit 200 (8 - 1) = true)%Z.
Proof.
  destruct (signed_suffix_value operator_i8 8 200) as (_ & _ & H & _);
    [apply list_elem_of_here | unfold ull; lia | exact H].
Defined.

End LiteralScenarios.

Section StrongNumberScenarios.
Import StrongNum.

(** X27 at [DistanceI64 d64 = d32;] with [d32] holding 42. *)
Lemma widening_keeps_value_witness :
  value_ (convert (int_t B64) (MkStrongNumber (T := int_t B32) 42)) = 42%Z.
Proof.
  destruct (widening_keeps_value true 16 (int_t B32) (int_t B64)
              (MkStrongNumber 42)) as [H _];
    [reflexivity | by left | simpl; lia | exact H].
Defined.

(** X28 at a [StrongNumber<std::uint8_t, Tag>] holding 2. *)
Lemma widening_to_bool_witness :
  value_ (convert bool_t (MkStrongNumber (T := uint_t B8) 2)) = 1%Z.
Proof.
  destruct (widening_to_bool true 16 (MkStrongNumber 2)) as (_ & H & _);
    [simpl; lia | exact H].
Defined.

(** X29 at [float], [double] and [long double] of 16 bytes. *)
Lemma widening_preorder_witness :
  is_widening_type true 16 (floating float_t) (floating long_double_t) = true.
Proof.
  apply (proj2 (widening_preorder true 16 (floating float_t)
                  (floating double_t) (floating long_double_t)));
    reflexivity.
Defined.

End StrongNumberScenarios.
